(** * ServiceDogProblem: a dog collects items in a small house

    Shallow embedding of [Session - 09.02.26/ServiceDogProblem.py]: the world
    tables, the [State] record, the auto-pickup transition engine and the
    breadth-first planner, followed by the proofs of their properties. *)

From stdpp Require Import gmap strings list fin_maps fin_sets sorting pretty.

#[local] Set Warnings "-clear-no-such-hyp".

(** ** Outcomes of Python code

    A dictionary subscript on an absent key raises [KeyError]; the plan replay
    of the text UI raises [RuntimeError] when a step is not applicable. *)

Inductive exn : Type :=
| KeyError
| RuntimeError.

Inductive result (A : Type) : Type :=
| Ok (a : A)
| Raise (e : exn).

Arguments Ok {A} a.
Arguments Raise {A} e.

#[global] Instance Ok_inj {A} : Inj (=) (=) (@Ok A).
Proof. by injection 1. Qed.

#[global] Instance result_ret : MRet result := λ A a, Ok a.
#[global] Instance result_bind : MBind result := λ A B f m,
  match m with
  | Ok a => f a
  | Raise e => Raise e
  end.

(** Subscript [d[k]] on a dictionary. *)
Definition subscript `{Countable K} {V : Type} (d : gmap K V) (k : K) : result V :=
  match d !! k with
  | Some v => Ok v
  | None => Raise KeyError
  end.

(** ** World definition *)

Definition ROOM1 : string := "room1".
Definition ROOM2 : string := "room2".
Definition ROOM3 : string := "room3".
Definition ROOM4 : string := "room4".
Definition ROOM5 : string := "room5".
Definition OUTSIDE1 : string := "outside1".
Definition OUTSIDE2 : string := "outside2".

Definition ITEM1 : string := "item1".
Definition ITEM2 : string := "item2".

Definition GRAPH : gmap string (list string) :=
  list_to_map
    [ (ROOM1, [ROOM2; ROOM3]);
      (ROOM2, [ROOM1; ROOM3]);
      (ROOM3, [ROOM1; ROOM2; OUTSIDE1; OUTSIDE2; ROOM4]);
      (ROOM4, [ROOM3; OUTSIDE2; ROOM5]);
      (ROOM5, [ROOM4]);
      (OUTSIDE1, [ROOM3]);
      (OUTSIDE2, [ROOM3; ROOM4]) ].

Definition ITEM_START_POS : gmap string string :=
  list_to_map [ (ITEM1, ROOM2); (ITEM2, ROOM5) ].

(** The two module-level tables are the only configuration the engine reads.
    The engine below takes them as a [World], so that the planner can also be
    run on other graphs; [shipped] is the world of the source file. *)
Record World : Type := mkWorld {
  graph : gmap string (list string);
  item_start_pos : gmap string string
}.

Definition shipped : World :=
  {| graph := GRAPH; item_start_pos := ITEM_START_POS |}.

(** ** State *)

Record State : Type := mkState {
  dog_pos : string;
  remaining_items : gset string
}.

#[global] Instance State_eq_dec : EqDecision State.
Proof. solve_decision. Defined.

#[global] Instance State_countable : Countable State :=
  inj_countable'
    (λ s, (dog_pos s, remaining_items s))
    (λ p, mkState p.1 p.2)
    (λ s, match s with mkState _ _ => eq_refl end).

(** A plan is the list built by [plan.append(prev_action[s])]: its entries
    are values of the [prev_action] dictionary, of type [Optional[str]]. *)
Abbreviation Plan := (list (option string)).

(** The text of an action, [f"move {s.dog_pos} -> {nxt}"]. *)
Definition move_label (src dst : string) : string :=
  "move " +:+ src +:+ " -> " +:+ dst.

Section Engine.
Context (w : World).

(** The comprehension [[it for it in its if ITEM_START_POS[it] == room]];
    the subscript is evaluated for every element, in iteration order. *)
Fixpoint select_in_room (room : string) (its : list string)
  : result (list string) :=
  match its with
  | [] => Ok []
  | it :: rest =>
      home ← subscript (item_start_pos w) it;
      found ← select_in_room room rest;
      Ok (if decide (home = room) then it :: found else found)
  end.

Definition items_in_room (room : string) (remaining : gset string)
  : result (list string) :=
  select_in_room room (elements remaining).

Definition auto_pickup (s : State) : result (State * list string) :=
  found ← items_in_room (dog_pos s) (remaining_items s);
  match found with
  | [] => Ok (s, [])
  | _ :: _ =>
      let new_remaining : gset string :=
        list_to_set (filter (λ x, x ∉ found) (elements (remaining_items s))) in
      Ok (mkState (dog_pos s) new_remaining, found)
  end.

Definition initial_state (start_pos : string) : result State :=
  let s := mkState start_pos (dom (item_start_pos w)) in
  '(s, _) ← auto_pickup s;
  Ok s.

(** The [for nxt in GRAPH[s.dog_pos]] loop, with [actions] as accumulator. *)
Fixpoint possible_actions_loop (s : State) (nbrs : list string)
    (actions : list (string * State)) : result (list (string * State)) :=
  match nbrs with
  | [] => Ok actions
  | nxt :: rest =>
      let moved := mkState nxt (remaining_items s) in
      '(moved, _) ← auto_pickup moved;
      possible_actions_loop s rest
        (actions ++ [(move_label (dog_pos s) nxt, moved)])
  end.

Definition possible_actions (s : State) : result (list (string * State)) :=
  nbrs ← subscript (graph w) (dog_pos s);
  possible_actions_loop s nbrs [].

Definition is_goal (s : State) : bool :=
  bool_decide (size (remaining_items s) = 0).

(** *** BFS planner *)

(** The three variables of [bfs_plan]. *)
Record Search : Type := mkSearch {
  q : list State;
  prev : gmap State (option State);
  prev_action : gmap State (option string)
}.

(** One iteration of [for action, nxt in possible_actions(cur)]. *)
Definition discover (cur : State) (st : Search) (an : string * State)
  : Search :=
  let '(action, nxt) := an in
  if decide (prev st !! nxt = None) then
    {| q := q st ++ [nxt];
       prev := <[nxt := Some cur]> (prev st);
       prev_action := <[nxt := Some action]> (prev_action st) |}
  else st.

(** The inner [while prev[s] is not None] loop.  [None] means that the
    iteration budget [fuel] ran out. *)
Fixpoint walk_back (fuel : nat) (st : Search) (s : State) (plan : Plan)
  : option (result Plan) :=
  match fuel with
  | 0 => None
  | S fuel =>
      match subscript (prev st) s with
      | Raise e => Some (Raise e)
      | Ok None => Some (Ok plan)
      | Ok (Some p) =>
          match subscript (prev_action st) s with
          | Raise e => Some (Raise e)
          | Ok a => walk_back fuel st p (plan ++ [a])
          end
      end
  end.

(** The outer [while q] loop. *)
Fixpoint bfs_loop (fuel : nat) (st : Search) : option (result (option Plan)) :=
  match fuel with
  | 0 => None
  | S fuel =>
      match q st with
      | [] => Some (Ok None)
      | cur :: rest =>
          if is_goal cur then
            match walk_back fuel st cur [] with
            | None => None
            | Some (Raise e) => Some (Raise e)
            | Some (Ok plan) => Some (Ok (Some (reverse plan)))
            end
          else
            match possible_actions cur with
            | Raise e => Some (Raise e)
            | Ok acts =>
                bfs_loop fuel
                  (fold_left (discover cur) acts
                     {| q := rest; prev := prev st;
                        prev_action := prev_action st |})
            end
      end
  end.

Definition bfs_start (start : State) : Search :=
  {| q := [start];
     prev := {[start := None]};
     prev_action := {[start := None]} |}.

Definition bfs_plan_fuel (fuel : nat) (start : State)
  : option (result (option Plan)) :=
  bfs_loop fuel (bfs_start start).

(** [bfs_plan start] ends with outcome [r]. *)
Definition bfs_plan (start : State) (r : result (option Plan)) : Prop :=
  ∃ fuel, bfs_plan_fuel fuel start = Some r.

(** *** Plan execution of the text UI (the [for step in plan] loop of
    [play_interactive]) *)
Fixpoint execute_plan (plan : Plan) (s : State) : result State :=
  match plan with
  | [] => Ok s
  | step :: rest =>
      acts ← possible_actions s;
      match filter (λ an, Some an.1 = step) acts with
      | [] => Raise RuntimeError
      | (_, ns) :: _ => execute_plan rest ns
      end
  end.

End Engine.

(** ** Specification vocabulary *)

Section Vocabulary.
Context (w : World).

(** Every item of the set has a home location in [ITEM_START_POS]. *)
Definition known_items (its : gset string) : Prop :=
  set_Forall (λ it, is_Some (item_start_pos w !! it)) its.

(** The remaining items whose home location is the dog's position. *)
Definition items_here (s : State) : gset string :=
  filter (λ it, item_start_pos w !! it = Some (dog_pos s)) (remaining_items s).

(** The state after entering [nxt] from [s], when no lookup fails. *)
Definition arrive (s : State) (nxt : string) : State :=
  let moved := mkState nxt (remaining_items s) in
  mkState nxt (remaining_items s ∖ items_here moved).

(** One neighbour of the expansion, as the specification words it: build
    the candidate at [nxt] with the same remaining items, apply the
    auto-pickup, emit the labelled result. *)
Definition expand_one (s : State) (nxt : string) : result (string * State) :=
  '(moved, _) ← auto_pickup w (mkState nxt (remaining_items s));
  Ok (move_label (dog_pos s) nxt, moved).

Fixpoint expand (s : State) (nbrs : list string)
  : result (list (string * State)) :=
  match nbrs with
  | [] => Ok []
  | nxt :: rest =>
      an ← expand_one s nxt;
      ans ← expand s rest;
      Ok (an :: ans)
  end.

(** A legal transition: a pair emitted by [possible_actions]. *)
Definition step (s : State) (a : string) (s' : State) : Prop :=
  ∃ acts, possible_actions w s = Ok acts ∧ (a, s') ∈ acts.

(** A sequence of legal transitions, each taken from the state it is
    applied to. *)
Inductive run : State → list string → State → Prop :=
| run_nil s : run s [] s
| run_cons s a s' acts s'' :
    step s a s' → run s' acts s'' → run s (a :: acts) s''.

(** The data-model invariant of a state. *)
Definition valid (s : State) : Prop :=
  dog_pos s ∈ dom (graph w) ∧ known_items (remaining_items s).

(** Neighbours stay inside the set of locations [L]. *)
Definition neighbours_within (L : gset string) : Prop :=
  ∀ l nbrs n, graph w !! l = Some nbrs → n ∈ nbrs → n ∈ L.

(** Closed world: every neighbour and every item home is a key of the
    graph. *)
Definition closed_world : Prop :=
  map_Forall (λ _ nbrs, Forall (λ n, n ∈ dom (graph w)) nbrs) (graph w)
  ∧ map_Forall (λ _ home, home ∈ dom (graph w)) (item_start_pos w).

(** A directed path in the world graph. *)
Inductive linked : string → string → Prop :=
| linked_here l : linked l l
| linked_hop l nbrs n m :
    graph w !! l = Some nbrs → n ∈ nbrs → linked n m → linked l m.

(** Every location the search can meet from [start]. *)
Definition locations (start : State) : gset string :=
  {[dog_pos start]}
  ∪ ⋃ ((λ kv, list_to_set kv.2) <$> map_to_list (graph w)).

End Vocabulary.

#[global] Instance closed_world_dec w : Decision (closed_world w).
Proof. unfold closed_world. apply _. Defined.

(** All sublists of a list (the subsets of a set, by its elements). *)
Fixpoint sublists {A : Type} (l : list A) : list (list A) :=
  match l with
  | [] => [[]]
  | x :: l => sublists l ++ ((x ::.) <$> sublists l)
  end.

(** All states over the locations [L] and the items [R]. *)
Definition candidates (L R : gset string) : list State :=
  (λ p, mkState p.1 (list_to_set p.2))
    <$> list_prod (elements L) (sublists (elements R)).

(** The size of the state space, |locations| x 2^|items|. *)
Definition state_space (L R : gset string) : nat :=
  size L * 2 ^ size R.

(** Iterations that suffice for the two loops of [bfs_plan]. *)
Definition search_bound (L R : gset string) : nat :=
  2 * state_space L R + 1.

(** ** Example inputs *)

(** The start of [main]'s session before the auto-pickup: the dog in room1,
    both items missing. *)
Definition both_missing : State := mkState ROOM1 {[ITEM1; ITEM2]}.

(** The dog enters room2 with both items missing, before the auto-pickup. *)
Definition at_item1 : State := mkState ROOM2 {[ITEM1; ITEM2]}.

(** A state outside the data model: the location is no key of [GRAPH]. *)
Definition in_garden : State := mkState "garden" {[ITEM1]}.

(** A state outside the data model: the item has no entry in
    [ITEM_START_POS]. *)
Definition unknown_item : State := mkState ROOM1 {["item3"]}.

(** A closed world whose item cannot be reached: no edge leads to the shed. *)
Definition island : World :=
  {| graph := list_to_map [("hall", ["yard"]); ("yard", ["hall"]); ("shed", [])];
     item_start_pos := list_to_map [("bone", "shed")] |}.

Definition in_hall : State := mkState "hall" {["bone"]}.

(** A goal state: nothing is missing. *)
Definition all_found : State := mkState ROOM3 ∅.

(** The plan that [bfs_plan] finds from [both_missing]. *)
Definition both_missing_plan : Plan :=
  [Some "move room1 -> room2"; Some "move room2 -> room3";
   Some "move room3 -> room4"; Some "move room4 -> room5"].

(** [bfs_plan_fuel] returned a plan. *)
Definition found_plan (o : option (result (option Plan))) : bool :=
  match o with
  | Some (Ok (Some _)) => true
  | _ => false
  end.

(** ** Invariants of the search *)

Section Invariants.
Context (w : World) (start : State).

(** [v] has an entry in [prev]. *)
Definition visited (st : Search) (v : State) : Prop :=
  is_Some (prev st !! v).

(** [v] has been dequeued and expanded: it is no goal, and each of its
    successors is recorded, at most one level below it. *)
Definition closed (d : State → nat) (st : Search) (v : State) : Prop :=
  is_goal v = false
  ∧ ∃ acts, possible_actions w v = Ok acts
      ∧ ∀ a v', (a, v') ∈ acts → visited st v' ∧ d v' ≤ S (d v).

(** The predecessor maps form a tree rooted at [start]; [d] is the depth
    of a state in that tree. *)
Record tree_inv (d : State → nat) (st : Search) : Prop := {
  tree_start : prev st !! start = Some None;
  tree_start_depth : d start = 0;
  tree_queue : ∀ v, v ∈ q st → visited st v;
  tree_root : ∀ v, prev st !! v = Some None → v = start;
  tree_parent : ∀ v p, prev st !! v = Some (Some p) →
    visited st p ∧ d v = S (d p)
    ∧ ∃ a, prev_action st !! v = Some (Some a) ∧ step w p a v;
  tree_depth : ∀ v, visited st v → d v < size (prev st)
}.

(** The state of the search while [cur] is being expanded and the pairs
    [done] have been processed; [q st] is the queue without [cur]. *)
Record front_inv (d : State → nat) (st : Search) (cur : State)
    (done : list (string * State)) : Prop := {
  front_cur : visited st cur;
  front_closed : ∀ v, visited st v → v ∉ q st → v ≠ cur → closed d st v;
  front_done : ∀ a v, (a, v) ∈ done → visited st v ∧ d v ≤ S (d cur);
  front_level : ∀ v, visited st v → d v ≤ S (d cur);
  front_queue : ∀ u, u ∈ q st → d cur ≤ d u;
  front_sorted : ∀ i j u v,
    q st !! i = Some u → q st !! j = Some v → i ≤ j → d u ≤ d v
}.

(** Every recorded state lies in the state space over [L] and [R]. *)
Definition within (L R : gset string) (st : Search) : Prop :=
  ∀ v, visited st v → dog_pos v ∈ L ∧ remaining_items v ⊆ R.

(** The queue with its head removed, as after [q.popleft()]. *)
Definition popped (st : Search) (rest : list State) : Search :=
  {| q := rest; prev := prev st; prev_action := prev_action st |}.

(** The states that the [while q] loop appends to [q], in order, when it
    runs from [st] for at most [fuel] iterations. *)
Fixpoint enqueued (fuel : nat) (st : Search) : list State :=
  match fuel with
  | 0 => []
  | S fuel =>
      match q st with
      | [] => []
      | cur :: rest =>
          if is_goal cur then []
          else
            match possible_actions w cur with
            | Raise _ => []
            | Ok acts =>
                let st' := fold_left (discover cur) acts (popped st rest) in
                drop (length rest) (q st') ++ enqueued fuel st'
            end
      end
  end.

(** All invariants together, while [cur] is being expanded. *)
Record expanding (L R : gset string) (d : State → nat) (st : Search)
    (cur : State) (done : list (string * State)) : Prop := {
  exp_tree : tree_inv d st;
  exp_front : front_inv d st cur done;
  exp_within : within L R st
}.

(** The invariant at the head of the [while q] loop. *)
Definition loop_inv (L R : gset string) (d : State → nat) (st : Search)
  : Prop :=
  match q st with
  | [] => tree_inv d st ∧ within L R st ∧ ∀ v, visited st v → closed d st v
  | cur :: rest => expanding L R d (popped st rest) cur []
  end.

(** What each outcome of [bfs_plan start] means. *)
Definition bfs_post (r : result (option Plan)) : Prop :=
  match r with
  | Ok (Some plan) =>
      ∃ acts goal, plan = Some <$> acts ∧ run w start acts goal
        ∧ is_goal goal = true
        ∧ ∀ acts' goal', run w start acts' goal' → is_goal goal' = true →
            length acts ≤ length acts'
  | Ok None => ∀ acts t, run w start acts t → is_goal t = false
  | Raise e =>
      e = KeyError
      ∧ ∃ acts v, run w start acts v ∧ possible_actions w v = Raise KeyError
  end.

End Invariants.

#[global] Instance known_items_dec w its : Decision (known_items w its).
Proof. unfold known_items. apply _. Defined.

(** ** Vocabulary for paths and pickups *)

Section Trails.
Context (w : World).

(** No remaining item of [s] has its home at the dog's position: the
    auto-pickup has nothing left to do. *)
Definition settled (s : State) : Prop := items_here w s = ∅.

(** The locations entered one after the other along edges of the graph,
    starting from [src]. *)
Inductive trail : string → list string → Prop :=
| trail_nil src : trail src []
| trail_cons src nbrs nxt rest :
    graph w !! src = Some nbrs → nxt ∈ nbrs → trail nxt rest →
    trail src (nxt :: rest).

(** The action texts of the moves along a trail. *)
Fixpoint trail_labels (src : string) (locs : list string) : list string :=
  match locs with
  | [] => []
  | nxt :: rest => move_label src nxt :: trail_labels nxt rest
  end.

(** The home of [it], if it has one, is none of [locs]. *)
Definition off_trail (locs : list string) (it : string) : Prop :=
  match item_start_pos w !! it with
  | Some home => home ∉ locs
  | None => True
  end.

End Trails.

#[global] Instance off_trail_dec w locs it : Decision (off_trail w locs it).
Proof. unfold off_trail. destruct (item_start_pos w !! it); apply _. Defined.

(** ** Text UI *)

(** Texts are byte strings (the UTF-8 form of the Python text); their
    bytewise order is the order of [sorted] on [str]. *)
Definition sorted (l : list string) : list string := merge_sort String.le l.

(** [sep.join(l)]. *)
Fixpoint join (sep : string) (l : list string) : string :=
  match l with
  | [] => ""
  | [x] => x
  | x :: rest => x +:+ sep +:+ join sep rest
  end.

Definition NL : string := String (Ascii.ascii_of_nat 10) "".

(** What [print(text)] writes to the standard output. *)
Definition print (text : string) : string := text +:+ NL.

(** [str(step)] for an entry of a plan. *)
Definition str (step : option string) : string :=
  match step with
  | Some text => text
  | None => "None"
  end.

Definition pretty_state (s : State) : string :=
  let remaining :=
    if decide (remaining_items s = ∅) then "none (all found)"
    else join ", " (sorted (elements (remaining_items s))) in
  "Dog: " +:+ dog_pos s +:+ " | Remaining: " +:+ remaining.

(** [sorted(old.remaining_items - s.remaining_items)]. *)
Definition found_now (old s : State) : list string :=
  sorted (elements (remaining_items old ∖ remaining_items s)).

(** The exceptions that can end a session: those of the engine, the one of
    [input()] at the end of the input, the one of [int()], and the one of a
    list subscript. *)
Inductive ui_exn : Type :=
| CoreError (e : exn)
| EOFError
| ValueError
| IndexError.

Inductive ending : Type :=
| Finished
| Failed (e : ui_exn).

(** A session: the texts written to the standard output, the value of the
    variable [s] when the session ends, and how it ends. *)
Record Session : Type := mkSession {
  stdout : list string;
  final : State;
  outcome : ending
}.

(** The session [r] after the texts [outs] have been written. *)
Definition say (outs : list string) (r : Session) : Session :=
  {| stdout := outs ++ stdout r; final := final r; outcome := outcome r |}.

Definition WIN : string :=
  "Nice Work! You win! Both items were found. Who's a Good Boy? üê∂".
Definition NO_PLAN : string := "‚ùå No plan found.".
Definition FOUND_AUTO : string := "Yayy!".
Definition FOUND_MOVE : string := "üéâ".

(** The lines [f"{mark} You found {it} in {pos}!"], one per item. *)
Definition found_lines (mark : string) (items : list string) (pos : string)
  : list string :=
  (λ it, print (mark +:+ " You found " +:+ it +:+ " in " +:+ pos +:+ "!"))
    <$> items.

(** The menu printed at each turn; the actions are numbered from 1. *)
Definition menu (acts : list (string * State)) : list string :=
  [print "Actions:"]
  ++ imap (λ i an, print ("  " +:+ pretty (S i) +:+ ". " +:+ an.1)) acts
  ++ [print "  a. auto-solve (shortest plan from here)"; print "  q. quit"].

Section TextUI.
Context (w : World).

(** The builtins of Python that read the answer: [str.strip], [str.lower],
    [str.isdigit] and [int] ([None] when it raises [ValueError]). *)
Context (str_strip str_lower : string → string).
Context (str_isdigit : string → bool).
Context (int_of_str : string → option Z).

(** A call of [bfs_plan]: the search is run for as many iterations as always
    suffice, so the branch for an exhausted budget is never taken
    ([bfs_plan_call_spec]). *)
Definition bfs_plan_call (s : State) : result (option Plan) :=
  match bfs_plan_fuel w
          (search_bound (locations w s) (remaining_items s)) s with
  | Some r => r
  | None => Raise KeyError
  end.

(** The loop [for step in plan] that executes an auto plan, with the texts
    it prints; the state is the value of [s] when the loop ends or raises. *)
Fixpoint execute_aloud (plan : Plan) (s : State)
  : list string * State * option exn :=
  match plan with
  | [] => ([], s, None)
  | step :: rest =>
      match possible_actions w s with
      | Raise e => ([], s, Some e)
      | Ok acts =>
          match filter (λ an, Some an.1 = step) acts with
          | [] => ([], s, Some RuntimeError)
          | (_, ns) :: _ =>
              let '(outs, s', e) := execute_aloud rest ns in
              (found_lines FOUND_AUTO (found_now s ns) (dog_pos ns) ++ outs,
               s', e)
          end
      end
  end.

(** The [while True] loop of [play_interactive]; [inputs] are the lines that
    [input] returns, one per call. *)
Fixpoint play_loop (inputs : list string) (s : State) : Session :=
  if is_goal s then mkSession [print WIN] s Finished
  else
    match possible_actions w s with
    | Raise e => mkSession [] s (Failed (CoreError e))
    | Ok acts =>
        say (menu acts ++ ["> "])
          match inputs with
          | [] => mkSession [] s (Failed EOFError)
          | line :: inputs =>
              let choice := str_lower (str_strip line) in
              say [print ""]
                (if decide (choice = "q") then
                   mkSession [print "Quit."] s Finished
                 else if decide (choice = "a") then
                   match bfs_plan_call s with
                   | Raise e => mkSession [] s (Failed (CoreError e))
                   | Ok None => say [print NO_PLAN] (play_loop inputs s)
                   | Ok (Some plan) =>
                       say ([print "Auto plan:"]
                            ++ ((λ step, print (" - " +:+ str step)) <$> plan))
                         (let '(outs, s', e) := execute_aloud plan s in
                          say outs
                            match e with
                            | Some e => mkSession [] s' (Failed (CoreError e))
                            | None =>
                                say [print (NL +:+ "End state:");
                                     print (pretty_state s'); print ""]
                                  (play_loop inputs s')
                            end)
                   end
                 else if negb (str_isdigit choice) then
                   say [print ("Please enter a number, 'a', or 'q'." +:+ NL)]
                     (play_loop inputs s)
                 else
                   match int_of_str choice with
                   | None => mkSession [] s (Failed ValueError)
                   | Some n =>
                       let idx := (n - 1)%Z in
                       if decide ((idx < 0)%Z ∨ (Z.of_nat (length acts) ≤ idx)%Z) then
                         say [print ("Invalid choice." +:+ NL)]
                           (play_loop inputs s)
                       else
                         match acts !! Z.to_nat idx with
                         | None => mkSession [] s (Failed IndexError)
                         | Some (_, s') =>
                             say (found_lines FOUND_MOVE (found_now s s')
                                    (dog_pos s')
                                  ++ [print (pretty_state s'); print ""])
                               (play_loop inputs s')
                         end
                   end)
          end
    end.

Definition play_interactive (inputs : list string) (start : State) : Session :=
  say [print "=== Dog finds 2 items (auto-pickup) ===";
       print "Goal: find both items.";
       print (pretty_state start);
       print ""]
    (play_loop inputs start).

(** [main]: the session from the initial state in room1. *)
Definition main (inputs : list string) : result Session :=
  start ← initial_state w ROOM1;
  Ok (play_interactive inputs start).

(** The answers read by the session. *)
Definition answer (line : string) : string := str_lower (str_strip line).

(** An answer that the session turns down with a message: no command, and
    no number of an action of the menu. *)
Definition turned_down (acts : list (string * State)) (line : string) : Prop :=
  answer line ≠ "q" ∧ answer line ≠ "a"
  ∧ (str_isdigit (answer line) = false
     ∨ (str_isdigit (answer line) = true
        ∧ ∃ n, int_of_str (answer line) = Some n
            ∧ ((n < 1)%Z ∨ (Z.of_nat (length acts) < n)%Z))).

(** What a session that began in state [s] with the lines [inputs] to read
    can be like when it ends. *)
Definition session_post (inputs : list string) (s : State) (r : Session)
  : Prop :=
  (∃ acts, run w s acts (final r))
  ∧ match outcome r with
    | Finished =>
        is_goal (final r) = true
        ∨ ∃ line, line ∈ inputs ∧ answer line = "q"
    | Failed (CoreError e) =>
        e = KeyError
        ∧ ∃ acts v, run w s acts v ∧ possible_actions w v = Raise KeyError
    | Failed EOFError =>
        is_goal (final r) = false ∧ ∀ line, line ∈ inputs → answer line ≠ "q"
    | Failed ValueError =>
        ∃ line, line ∈ inputs ∧ str_isdigit (answer line) = true
          ∧ int_of_str (answer line) = None
    | Failed IndexError => False
    end.

End TextUI.

(** Stand-ins for the builtins in the examples: they agree with [str.strip],
    [str.lower], [str.isdigit] and [int] on the answers "q", "a", "x", "2"
    and "9" that the examples use. *)
Definition demo_strip (line : string) : string := line.
Definition demo_lower (line : string) : string := line.
Definition demo_isdigit (text : string) : bool :=
  bool_decide (text = "2" ∨ text = "9").
Definition demo_int (text : string) : option Z :=
  if decide (text = "2") then Some 2%Z
  else if decide (text = "9") then Some 9%Z
  else None.

(** The pairs that [possible_actions] emits in [both_missing]. *)
Definition both_missing_actions : list (string * State) :=
  [("move room1 -> room2", mkState ROOM2 {[ITEM2]});
   ("move room1 -> room3", mkState ROOM3 {[ITEM1; ITEM2]})].

(** ** The transition engine *)

Section EngineFacts.
Context (w : World).

Lemma select_in_room_known room its :
  Forall (λ it, is_Some (item_start_pos w !! it)) its →
  select_in_room w room its
  = Ok (filter (λ it, item_start_pos w !! it = Some room) its).
Proof.
  induction 1 as [|it its [home Hhome] _ IH]; [done|].
  rewrite filter_cons. simpl. unfold subscript. rewrite Hhome. simpl.
  rewrite IH. simpl. f_equal.
  destruct (decide (home = room)) as [->|Hne].
  - by rewrite decide_True.
  - rewrite decide_False; [done|]. congruence.
Qed.

Lemma select_in_room_unknown room its :
  ¬ Forall (λ it, is_Some (item_start_pos w !! it)) its →
  select_in_room w room its = Raise KeyError.
Proof.
  induction its as [|it its IH]; intros Hn.
  - destruct Hn. constructor.
  - cbn. unfold subscript.
    destruct (item_start_pos w !! it) as [home|] eqn:Hhome; [|done].
    cbn. rewrite IH; [done|].
    intros Hall. apply Hn. constructor; [by eexists|done].
Qed.

Lemma known_items_Forall its :
  known_items w its ↔
  Forall (λ it, is_Some (item_start_pos w !! it)) (elements its).
Proof.
  rewrite Forall_forall. unfold known_items.
  split; intros H it Hit; apply H; by apply elem_of_elements.
Qed.

Lemma items_in_room_known room its :
  known_items w its →
  items_in_room w room its
  = Ok (filter (λ it, item_start_pos w !! it = Some room) (elements its)).
Proof.
  intros H. apply select_in_room_known. by apply known_items_Forall.
Qed.

Lemma items_in_room_unknown room its :
  ¬ known_items w its → items_in_room w room its = Raise KeyError.
Proof.
  intros H. apply select_in_room_unknown. by rewrite <- known_items_Forall.
Qed.

Lemma items_in_room_Ok room its found :
  items_in_room w room its = Ok found → known_items w its.
Proof.
  intros H. destruct (decide (Forall (λ it, is_Some (item_start_pos w !! it))
                                (elements its))) as [Hk|Hk].
  - by apply known_items_Forall.
  - unfold items_in_room in H. by rewrite select_in_room_unknown in H.
Qed.

Lemma elem_of_found s x :
  x ∈ filter (λ it, item_start_pos w !! it = Some (dog_pos s))
        (elements (remaining_items s))
  ↔ x ∈ items_here w s.
Proof.
  unfold items_here.
  by rewrite list_elem_of_filter, elem_of_filter, elem_of_elements.
Qed.

Lemma auto_pickup_known s :
  known_items w (remaining_items s) →
  auto_pickup w s
  = Ok (mkState (dog_pos s) (remaining_items s ∖ items_here w s),
        filter (λ it, item_start_pos w !! it = Some (dog_pos s))
          (elements (remaining_items s))).
Proof.
  intros Hk. unfold auto_pickup. rewrite items_in_room_known by done.
  simpl. pose proof (elem_of_found s) as Hfound.
  destruct (filter _ (elements (remaining_items s))) as [|it found] eqn:E.
  - do 2 f_equal. destruct s as [pos rem]; simpl in *. f_equal.
    apply set_eq. intros x. rewrite elem_of_difference, <- Hfound.
    split; [intros ?; split; [done|by apply not_elem_of_nil]|tauto].
  - do 3 f_equal. apply set_eq. intros x.
    rewrite elem_of_list_to_set, list_elem_of_filter, elem_of_elements.
    rewrite elem_of_difference, <- Hfound. tauto.
Qed.

Lemma auto_pickup_unknown s :
  ¬ known_items w (remaining_items s) → auto_pickup w s = Raise KeyError.
Proof.
  intros Hk. unfold auto_pickup. by rewrite items_in_room_unknown.
Qed.

Lemma auto_pickup_Ok s s' found :
  auto_pickup w s = Ok (s', found) →
  known_items w (remaining_items s)
  ∧ s' = mkState (dog_pos s) (remaining_items s ∖ items_here w s)
  ∧ found = filter (λ it, item_start_pos w !! it = Some (dog_pos s))
              (elements (remaining_items s)).
Proof.
  intros H. assert (known_items w (remaining_items s)) as Hk.
  { unfold auto_pickup in H.
    destruct (items_in_room w (dog_pos s) (remaining_items s)) eqn:E; [|done].
    by eapply items_in_room_Ok. }
  rewrite auto_pickup_known in H by done. by simplify_eq.
Qed.

Lemma known_items_subseteq X Y :
  X ⊆ Y → known_items w Y → known_items w X.
Proof. intros HXY HY it Hit. apply HY. set_solver. Qed.

(** *** Expansion *)

Lemma possible_actions_loop_expand s nbrs actions :
  possible_actions_loop w s nbrs actions
  = ans ← expand w s nbrs; Ok (actions ++ ans).
Proof.
  revert actions. induction nbrs as [|nxt rest IH]; intros actions; simpl.
  - by rewrite app_nil_r.
  - unfold expand_one.
    destruct (auto_pickup w (mkState nxt (remaining_items s)))
      as [[moved found]|e]; simpl; [|done].
    rewrite IH. destruct (expand w s rest) as [ans|e]; simpl; [|done].
    by rewrite <- app_assoc.
Qed.

Lemma possible_actions_expand s nbrs :
  graph w !! dog_pos s = Some nbrs →
  possible_actions w s = expand w s nbrs.
Proof.
  intros Hg. unfold possible_actions, subscript. rewrite Hg. simpl.
  rewrite possible_actions_loop_expand.
  by destruct (expand w s nbrs).
Qed.

Lemma expand_one_known s nxt :
  known_items w (remaining_items s) →
  expand_one w s nxt = Ok (move_label (dog_pos s) nxt, arrive w s nxt).
Proof.
  intros Hk. unfold expand_one. by rewrite auto_pickup_known.
Qed.

Lemma expand_known s nbrs :
  known_items w (remaining_items s) →
  expand w s nbrs
  = Ok ((λ nxt, (move_label (dog_pos s) nxt, arrive w s nxt)) <$> nbrs).
Proof.
  intros Hk. induction nbrs as [|nxt rest IH]; simpl; [done|].
  by rewrite expand_one_known, IH.
Qed.

Lemma expand_Ok_known s nxt rest acts :
  expand w s (nxt :: rest) = Ok acts → known_items w (remaining_items s).
Proof.
  simpl. unfold expand_one.
  destruct (auto_pickup w (mkState nxt (remaining_items s)))
    as [[moved found]|e] eqn:E; [|done].
  intros _. by apply auto_pickup_Ok in E as [? _].
Qed.

Lemma move_label_inj src n1 n2 :
  move_label src n1 = move_label src n2 → n1 = n2.
Proof.
  unfold move_label. intros H.
  by repeat apply (inj (String.app _)) in H.
Qed.

(** *** Legal transitions *)

Lemma step_inv s a s' :
  step w s a s' →
  ∃ nbrs n, graph w !! dog_pos s = Some nbrs ∧ n ∈ nbrs
    ∧ known_items w (remaining_items s)
    ∧ a = move_label (dog_pos s) n ∧ s' = arrive w s n.
Proof.
  intros (acts & Hacts & Hin).
  destruct (graph w !! dog_pos s) as [nbrs|] eqn:Hg.
  - rewrite (possible_actions_expand s nbrs) in Hacts by done.
    destruct nbrs as [|nxt rest].
    { simpl in Hacts. simplify_eq. by apply elem_of_nil in Hin. }
    pose proof (expand_Ok_known _ _ _ _ Hacts) as Hk.
    rewrite expand_known in Hacts by done.
    apply (inj Ok) in Hacts as <-.
    apply list_elem_of_fmap in Hin as (n & Heq & Hn). simplify_eq.
    by exists (nxt :: rest), n.
  - unfold possible_actions, subscript in Hacts. by rewrite Hg in Hacts.
Qed.

Lemma step_intro s nbrs n :
  graph w !! dog_pos s = Some nbrs → n ∈ nbrs →
  known_items w (remaining_items s) →
  step w s (move_label (dog_pos s) n) (arrive w s n).
Proof.
  intros Hg Hn Hk. exists ((λ nxt, (move_label (dog_pos s) nxt, arrive w s nxt)) <$> nbrs).
  split.
  - by rewrite (possible_actions_expand s nbrs), expand_known.
  - apply list_elem_of_fmap. by exists n.
Qed.

Lemma step_det s a s1 s2 : step w s a s1 → step w s a s2 → s1 = s2.
Proof.
  intros H1 H2.
  apply step_inv in H1 as (nbrs1 & n1 & Hg1 & Hn1 & Hk1 & -> & ->).
  apply step_inv in H2 as (nbrs2 & n2 & Hg2 & Hn2 & Hk2 & Hlab & ->).
  by apply move_label_inj in Hlab as ->.
Qed.

Lemma arrive_remaining s n :
  remaining_items (arrive w s n) ⊆ remaining_items s.
Proof. unfold arrive. simpl. set_solver. Qed.

Lemma step_remaining s a s' :
  step w s a s' → remaining_items s' ⊆ remaining_items s.
Proof.
  intros H. apply step_inv in H as (nbrs & n & Hg & Hn & Hk & -> & ->).
  apply arrive_remaining.
Qed.

Lemma step_dog_pos s a s' nbrs :
  step w s a s' → graph w !! dog_pos s = Some nbrs → dog_pos s' ∈ nbrs.
Proof.
  intros H Hg. apply step_inv in H as (nbrs' & n & Hg' & Hn & Hk & -> & ->).
  simpl. congruence.
Qed.

Lemma step_Raise s a s' e : possible_actions w s = Raise e → ¬ step w s a s'.
Proof. intros He (acts & Hacts & _). congruence. Qed.

Lemma expand_Raise s nbrs e : expand w s nbrs = Raise e → e = KeyError.
Proof.
  destruct (decide (known_items w (remaining_items s))) as [Hk|Hk].
  { by rewrite expand_known. }
  destruct nbrs as [|nxt rest]; [done|].
  simpl. unfold expand_one. rewrite auto_pickup_unknown by done.
  simpl. congruence.
Qed.

Lemma possible_actions_Raise s e :
  possible_actions w s = Raise e → e = KeyError.
Proof.
  destruct (graph w !! dog_pos s) as [nbrs|] eqn:Hg.
  - rewrite (possible_actions_expand s nbrs) by done. apply expand_Raise.
  - unfold possible_actions, subscript. rewrite Hg. simpl. congruence.
Qed.

Lemma possible_actions_valid s :
  valid w s → ∃ acts, possible_actions w s = Ok acts.
Proof.
  intros [[nbrs Hg]%elem_of_dom Hk].
  rewrite (possible_actions_expand s nbrs), expand_known by done. eauto.
Qed.

(** *** Runs *)

Lemma run_nil_inv s t : run w s [] t → t = s.
Proof. by inversion 1. Qed.

Lemma run_snoc s acts p a v :
  run w s acts p → step w p a v → run w s (acts ++ [a]) v.
Proof.
  induction 1 as [s|s b s' acts s'' Hstep Hrun IH]; intros Hv; simpl.
  - eapply run_cons; [done|constructor].
  - eapply run_cons; [done|]. by apply IH.
Qed.

Lemma run_snoc_inv s acts a t :
  run w s (acts ++ [a]) t → ∃ p, run w s acts p ∧ step w p a t.
Proof.
  revert s. induction acts as [|b acts IH]; intros s Hrun; simpl in *.
  - inversion Hrun as [|? ? s' ? ? Hstep Hrest]; subst.
    inversion Hrest; subst. exists s. split; [constructor|done].
  - inversion Hrun as [|? ? s' ? ? Hstep Hrest]; subst.
    apply IH in Hrest as (p & Hp & Hlast).
    exists p. split; [by eapply run_cons|done].
Qed.

Lemma run_execute_plan s acts t :
  run w s acts t → execute_plan w (Some <$> acts) s = Ok t.
Proof.
  induction 1 as [s|s a s' acts s'' Hstep Hrun IH]; [done|].
  destruct Hstep as (l & Hl & Hin). simpl. rewrite Hl. simpl.
  destruct (filter (λ an : string * State, Some an.1 = Some a) l)
    as [|[a' ns] rest] eqn:E.
  - assert ((a, s') ∈ filter (λ an : string * State, Some an.1 = Some a) l)
      as Hf by (by apply list_elem_of_filter).
    rewrite E in Hf. by apply elem_of_nil in Hf.
  - assert ((a', ns) ∈ filter (λ an : string * State, Some an.1 = Some a) l)
      as Hf by (rewrite E; left).
    apply list_elem_of_filter in Hf as [Ha Hns]. simpl in Ha.
    assert (a' = a) as -> by congruence.
    assert (ns = s') as ->; [|done].
    apply (step_det s a); by exists l.
Qed.

Lemma run_remaining s acts t :
  run w s acts t → remaining_items t ⊆ remaining_items s.
Proof.
  induction 1 as [s|s a s' acts s'' Hstep Hrun IH]; [done|].
  apply step_remaining in Hstep. set_solver.
Qed.

End EngineFacts.

(** ** The size of the state space *)

Lemma sublists_length {A} (l : list A) : length (sublists l) = 2 ^ length l.
Proof.
  induction l as [|x l IH]; [done|].
  cbn [sublists]. rewrite length_app, length_fmap, IH.
  cbn [length]. rewrite Nat.pow_succ_r'. lia.
Qed.

Lemma sublists_complete (l : list string) (X : gset string) :
  X ⊆ list_to_set l → ∃ r, r ∈ sublists l ∧ list_to_set r = X.
Proof.
  revert X. induction l as [|x l IH]; intros X HX.
  - exists []. split; [by left|]. simpl in *. set_solver.
  - destruct (IH (X ∖ {[x]})) as (r & Hr & Hset); [set_solver|].
    cbn [sublists]. destruct (decide (x ∈ X)) as [Hx|Hx].
    + exists (x :: r). split.
      * apply elem_of_app. right. by apply list_elem_of_fmap_2.
      * simpl. rewrite Hset. apply set_eq. intros y.
        rewrite elem_of_union, elem_of_singleton, elem_of_difference,
          elem_of_singleton.
        destruct (decide (y = x)) as [->|]; tauto.
    + exists r. split; [apply elem_of_app; by left|].
      rewrite Hset. set_solver.
Qed.

Lemma candidates_length L R : length (candidates L R) = state_space L R.
Proof.
  unfold candidates, state_space.
  by rewrite length_fmap, length_prod, sublists_length.
Qed.

Lemma candidates_complete L R v :
  dog_pos v ∈ L → remaining_items v ⊆ R → v ∈ candidates L R.
Proof.
  intros HL HR. destruct (sublists_complete (elements R) (remaining_items v))
    as (r & Hr & Hset).
  { by rewrite list_to_set_elements_L. }
  apply list_elem_of_fmap. exists (dog_pos v, r). split.
  - simpl. rewrite Hset. by destruct v.
  - apply list_elem_of_In, in_prod; apply list_elem_of_In; [|done].
    by apply elem_of_elements.
Qed.

Lemma size_le_length (X : gset State) (l : list State) :
  (∀ x, x ∈ X → x ∈ l) → size X ≤ length l.
Proof.
  intros HX. unfold size, set_size. simpl.
  apply submseteq_length, NoDup_submseteq; [apply NoDup_elements|].
  intros x Hx. by apply HX, elem_of_elements.
Qed.

Lemma within_size L R st : within L R st → size (prev st) ≤ state_space L R.
Proof.
  intros Hw. rewrite <- (size_dom (D:=gset State)), <- candidates_length.
  apply size_le_length. intros x Hx%elem_of_dom.
  destruct (Hw x Hx). by apply candidates_complete.
Qed.

(** ** The search *)

Section SearchFacts.
Context (w : World) (start : State) (L R : gset string).
Hypothesis neighbours_in_L : neighbours_within w L.

Lemma visited_not_None st v : visited st v ↔ prev st !! v ≠ None.
Proof. unfold visited. by rewrite not_eq_None_Some. Qed.

Lemma discover_old cur st a v :
  visited st v → discover cur st (a, v) = st.
Proof.
  intros Hv. unfold discover. rewrite decide_False; [done|].
  by apply visited_not_None.
Qed.

Lemma discover_new cur st a v :
  prev st !! v = None →
  discover cur st (a, v)
  = {| q := q st ++ [v];
       prev := <[v := Some cur]> (prev st);
       prev_action := <[v := Some a]> (prev_action st) |}.
Proof. intros Hv. unfold discover. by rewrite decide_True. Qed.

Lemma step_within cur a v :
  dog_pos cur ∈ L → remaining_items cur ⊆ R → step w cur a v →
  dog_pos v ∈ L ∧ remaining_items v ⊆ R.
Proof.
  intros HcL HcR Hstep. split.
  - pose proof Hstep as (nbrs & n & Hg & Hn & _)%step_inv.
    eapply neighbours_in_L; [done|]. by eapply step_dog_pos.
  - apply step_remaining in Hstep. set_solver.
Qed.

Lemma discover_inv d st cur done a v :
  expanding w start L R d st cur done → step w cur a v →
  ∃ d', expanding w start L R d' (discover cur st (a, v)) cur
          (done ++ [(a, v)])
    ∧ length (q (discover cur st (a, v))) + size (prev st)
      = length (q st) + size (prev (discover cur st (a, v))).
Proof.
  intros [Ht Hf Hw] Hstep.
  destruct (decide (prev st !! v = None)) as [Hnew|Hold].
  2: { apply visited_not_None in Hold. rewrite discover_old by done.
       exists d. split; [|done]. split; [done| |done].
       destruct Hf. split; try done.
       intros a' v' [Hin|Hin]%elem_of_app; [by eauto|].
       apply list_elem_of_singleton in Hin. simplify_eq. eauto. }
  rewrite discover_new by done.
  set (st' := {| q := q st ++ [v]; prev := <[v:=Some cur]> (prev st);
                 prev_action := <[v:=Some a]> (prev_action st) |}).
  set (d' := λ x, if decide (x = v) then S (d cur) else d x).
  assert (visited st cur) as Hcur by apply Hf.
  assert (∀ x, visited st x → x ≠ v) as Hne.
  { intros x Hx ->. apply visited_not_None in Hx. done. }
  assert (∀ x, x ≠ v → d' x = d x) as Hd'.
  { intros x Hx. unfold d'. by rewrite decide_False. }
  assert (d' v = S (d cur)) as Hd'v.
  { unfold d'. by rewrite decide_True. }
  assert (∀ x, visited st x → visited st' x) as Hmono.
  { intros x Hx. unfold visited, st'. simpl.
    rewrite lookup_insert_ne; [done|]. by apply not_eq_sym, Hne. }
  assert (∀ x, visited st' x → x = v ∨ visited st x) as Hinv.
  { intros x. unfold visited, st'. simpl.
    destruct (decide (x = v)) as [->|Hx]; [by left|].
    rewrite lookup_insert_ne by done. by right. }
  assert (visited st' v) as Hv'.
  { unfold visited, st'. simpl. by rewrite lookup_insert_eq. }
  exists d'. split; [|simpl; rewrite length_app, map_size_insert_None by done;
                     simpl; lia].
  split.
  - (* the predecessor tree *)
    destruct Ht as [Hs Hds Hq Hroot Hpar Hdep]. split.
    + simpl. rewrite lookup_insert_ne; [done|].
      intros ->. congruence.
    + rewrite Hd'; [done|]. intros ->. congruence.
    + intros x [Hx| ->%list_elem_of_singleton]%elem_of_app; auto.
    + intros x. simpl. destruct (decide (x = v)) as [->|Hx].
      * by rewrite lookup_insert_eq.
      * rewrite lookup_insert_ne by done. apply Hroot.
    + intros x p. simpl. destruct (decide (x = v)) as [->|Hx].
      * rewrite !lookup_insert_eq. intros ?; simplify_eq.
        split; [by apply Hmono|]. split; [|by eauto].
        rewrite Hd'v, Hd'; [done|]. by apply Hne.
      * rewrite !lookup_insert_ne by done. intros Hp.
        destruct (Hpar _ _ Hp) as (Hvp & Hdx & Ha).
        split; [by apply Hmono|]. split; [|done].
        rewrite !Hd'; [done| |done]. by apply Hne.
    + intros x Hx. simpl. rewrite map_size_insert_None by done.
      destruct (Hinv _ Hx) as [->|Hx'].
      * rewrite Hd'v. apply Hdep in Hcur. lia.
      * rewrite Hd' by by apply Hne. apply Hdep in Hx'. lia.
  - (* the frontier *)
    destruct Hf as [_ Hcl Hdone Hlev Hqu Hsort]. split.
    + by apply Hmono.
    + intros x Hx Hxq Hxc. simpl in Hxq.
      rewrite elem_of_app, list_elem_of_singleton in Hxq.
      destruct (Hinv _ Hx) as [->|Hx']; [tauto|].
      destruct (Hcl x) as (Hng & acts & Hacts & Hsucc); [done|tauto|done|].
      split; [done|]. exists acts. split; [done|].
      intros b y Hy. destruct (Hsucc _ _ Hy) as [Hvy Hdy].
      split; [by apply Hmono|]. rewrite !Hd'; [done|by apply Hne..].
    + intros b y [Hy|Hy]%elem_of_app.
      * destruct (Hdone _ _ Hy) as [Hvy Hdy].
        split; [by apply Hmono|]. rewrite !Hd'; [done|by apply Hne..].
      * apply list_elem_of_singleton in Hy. simplify_eq.
        split; [done|]. rewrite Hd'v, Hd'; [done|by apply Hne].
    + intros x Hx. rewrite (Hd' cur) by by apply Hne.
      destruct (Hinv _ Hx) as [->|Hx'].
      * by rewrite Hd'v.
      * rewrite Hd' by by apply Hne. by apply Hlev.
    + intros u. simpl. rewrite (Hd' cur) by by apply Hne.
      intros [Hu| ->%list_elem_of_singleton]%elem_of_app.
      * rewrite Hd'; [by apply Hqu|]. apply Hne. by apply (tree_queue _ _ _ _ Ht).
      * rewrite Hd'v. lia.
    + intros i j u x. simpl. intros Hi Hj Hij.
      apply lookup_snoc_Some in Hi as [[Hil Hi]|[Hil ->]];
        apply lookup_snoc_Some in Hj as [[Hjl Hj]|[Hjl ->]].
      * assert (visited st u) as Hu.
        { eapply (tree_queue _ _ _ _ Ht), list_elem_of_lookup_2, Hi. }
        assert (visited st x) as Hx.
        { eapply (tree_queue _ _ _ _ Ht), list_elem_of_lookup_2, Hj. }
        rewrite !Hd' by by apply Hne. by eapply Hsort.
      * assert (visited st u) as Hu.
        { eapply (tree_queue _ _ _ _ Ht), list_elem_of_lookup_2, Hi. }
        rewrite Hd'v, Hd' by by apply Hne. by apply Hlev.
      * lia.
      * done.
  - (* the state space *)
    intros x Hx. destruct (Hinv _ Hx) as [->|Hx']; [|by apply Hw].
    destruct (Hw _ Hcur) as [HcL HcR]. by eapply step_within.
Qed.

Lemma expand_inv cur acts : ∀ d st done,
  expanding w start L R d st cur done →
  (∀ a v, (a, v) ∈ acts → step w cur a v) →
  ∃ d', expanding w start L R d' (fold_left (discover cur) acts st) cur
          (done ++ acts)
    ∧ length (q (fold_left (discover cur) acts st)) + size (prev st)
      = length (q st) + size (prev (fold_left (discover cur) acts st)).
Proof.
  induction acts as [|[a v] acts IH]; intros d st done Hexp Hsteps;
    cbn [fold_left].
  - exists d. by rewrite app_nil_r.
  - destruct (discover_inv d st cur done a v) as (d1 & Hexp1 & Hlen1);
      [done|apply Hsteps; left|].
    destruct (IH d1 (discover cur st (a, v)) (done ++ [(a, v)]))
      as (d2 & Hexp2 & Hlen2); [done|intros; apply Hsteps; by right|].
    exists d2. rewrite <- app_assoc in Hexp2. split; [done|lia].
Qed.

(** *** Walking the predecessor links *)

Lemma walk_back_trace d st : tree_inv w start d st → ∀ n v,
  d v = n → visited st v →
  ∃ acts, run w start acts v ∧ length acts = n
    ∧ ∀ fuel plan, n < fuel →
        walk_back fuel st v plan = Some (Ok (plan ++ reverse (Some <$> acts))).
Proof.
  intros [Hs Hds Hq Hroot Hpar Hdep].
  induction n as [|n IH]; intros v Hdv [pv Hv].
  - destruct pv as [p|].
    { destruct (Hpar _ _ Hv) as (_ & Hd & _). lia. }
    apply Hroot in Hv as Hvs. subst v. exists []. split; [constructor|].
    split; [done|]. intros [|fuel] plan Hfuel; [lia|].
    simpl. unfold subscript. rewrite Hv. by rewrite app_nil_r.
  - destruct pv as [p|]; [|apply Hroot in Hv; subst v; lia].
    destruct (Hpar _ _ Hv) as (Hp & Hd & a & Ha & Hstep).
    destruct (IH p) as (acts & Hrun & Hlen & Hwalk); [lia|done|].
    exists (acts ++ [a]). split; [by eapply run_snoc|].
    split; [rewrite length_app; simpl; lia|].
    intros [|fuel] plan Hfuel; [lia|].
    simpl. unfold subscript. rewrite Hv, Ha.
    rewrite Hwalk by lia. rewrite fmap_app, reverse_app. simpl.
    by rewrite <- app_assoc.
Qed.

Lemma tree_inv_unpop d st cur rest :
  q st = cur :: rest → visited st cur →
  tree_inv w start d (popped st rest) → tree_inv w start d st.
Proof.
  intros Hq Hcur [Hs Hds Hqu Hroot Hpar Hdep]. split; try done.
  intros v. rewrite Hq. intros [->|Hv]%elem_of_cons; [done|by apply Hqu].
Qed.

(** *** What the frontier invariant gives when the loop stops *)

Lemma closed_step d st p a t :
  closed w d st p → step w p a t → visited st t ∧ d t ≤ S (d p).
Proof.
  intros (_ & acts & Hacts & Hsucc) (acts' & Hacts' & Hin).
  apply (Hsucc a). congruence.
Qed.

Lemma front_below d st cur acts t :
  expanding w start L R d st cur [] →
  run w start acts t → length acts < d cur →
  visited st t ∧ d t ≤ length acts ∧ closed w d st t.
Proof.
  intros [Ht Hf _]. revert t.
  assert (∀ x n, visited st x → d x ≤ n → n < d cur → closed w d st x)
    as Hclosed.
  { intros x n Hx Hdx Hn. apply (front_closed _ _ _ _ _ Hf); [done| |].
    - intros Hxq. apply (front_queue _ _ _ _ _ Hf) in Hxq. lia.
    - intros ->. lia. }
  induction acts as [|a acts IH] using rev_ind; intros t Hrun Hlen.
  - apply run_nil_inv in Hrun as ->.
    assert (visited st start) as Hvs.
    { unfold visited. by rewrite (tree_start _ _ _ _ Ht). }
    assert (d start ≤ 0) as Hd0 by (rewrite (tree_start_depth _ _ _ _ Ht); lia).
    split; [done|]. split; [done|]. by eapply Hclosed.
  - apply run_snoc_inv in Hrun as (p & Hrun & Hstep).
    rewrite length_app in Hlen. simpl in Hlen.
    destruct (IH p) as (Hp & Hdp & Hcp); [done|lia|].
    destruct (closed_step _ _ _ _ _ Hcp Hstep) as [Hvt Hdt].
    rewrite length_app. simpl.
    split; [done|]. split; [lia|]. eapply Hclosed; [done| |done]. lia.
Qed.

Lemma front_optimal d st cur acts t :
  expanding w start L R d st cur [] →
  run w start acts t → is_goal t = true → d cur ≤ length acts.
Proof.
  intros Hexp Hrun Hgoal.
  destruct (decide (d cur ≤ length acts)) as [|Hlt]; [done|].
  destruct (front_below d st cur acts t) as (_ & _ & Hng & _); [done..|lia|].
  congruence.
Qed.

Lemma exhausted_no_goal d st acts t :
  tree_inv w start d st → (∀ v, visited st v → closed w d st v) →
  run w start acts t → visited st t ∧ is_goal t = false.
Proof.
  intros Ht Hcl. revert t.
  induction acts as [|a acts IH] using rev_ind; intros t Hrun.
  - apply run_nil_inv in Hrun as ->.
    assert (visited st start) as Hvs.
    { unfold visited. by rewrite (tree_start _ _ _ _ Ht). }
    split; [done|]. by apply Hcl.
  - apply run_snoc_inv in Hrun as (p & Hrun & Hstep).
    destruct (IH p Hrun) as [Hp _].
    destruct (closed_step _ _ _ _ _ (Hcl _ Hp) Hstep) as [Hvt _].
    split; [done|]. by apply Hcl.
Qed.

(** *** The outer loop *)

Lemma expanded_loop_inv d st cur acts :
  expanding w start L R d st cur acts →
  is_goal cur = false → possible_actions w cur = Ok acts →
  loop_inv w start L R d st.
Proof.
  intros [Ht Hf Hw] Hng Hacts.
  assert (closed w d st cur) as Hcur.
  { split; [done|]. exists acts. split; [done|]. apply Hf. }
  assert (∀ v, visited st v → v ∉ q st → closed w d st v) as Hcl.
  { intros v Hv Hq. destruct (decide (v = cur)) as [->|Hne]; [done|].
    by apply (front_closed _ _ _ _ _ Hf). }
  unfold loop_inv. destruct (q st) as [|u rest] eqn:Hq.
  - split; [done|]. split; [done|]. intros v Hv. apply Hcl; [done|].
    apply not_elem_of_nil.
  - assert (visited st u) as Hu.
    { apply (tree_queue _ _ _ _ Ht). rewrite Hq. left. }
    assert (d cur ≤ d u) as Hcu.
    { apply (front_queue _ _ _ _ _ Hf). rewrite Hq. left. }
    split; [| |done].
    + destruct Ht as [Hs Hds Hqu Hroot Hpar Hdep]. split; try done.
      intros v Hv. apply Hqu. rewrite Hq. by right.
    + split; simpl.
      * done.
      * intros v Hv Hvr Hvu. apply Hcl; [done|]. rewrite ?Hq.
        intros [->|?]%elem_of_cons; done.
      * intros a v Hin. by apply elem_of_nil in Hin.
      * intros v Hv. apply (front_level _ _ _ _ _ Hf) in Hv. lia.
      * intros x Hx. apply list_elem_of_lookup in Hx as [j Hj].
        apply (front_sorted _ _ _ _ _ Hf 0 (S j)); rewrite ?Hq; [done..|lia].
      * intros i j x y Hi Hj Hij.
        apply (front_sorted _ _ _ _ _ Hf (S i) (S j)); rewrite ?Hq; [done..|lia].
Qed.

Lemma bfs_loop_spec : ∀ fuel st d,
  loop_inv w start L R d st →
  length (q st) + (state_space L R - size (prev st)) + state_space L R + 1
    ≤ fuel →
  ∃ r, bfs_loop w fuel st = Some r ∧ bfs_post w start r.
Proof.
  induction fuel as [|fuel IH]; intros st d Hinv Hfuel; [lia|].
  unfold loop_inv in Hinv. simpl.
  destruct (q st) as [|cur rest] eqn:Hq.
  { destruct Hinv as (Ht & _ & Hcl). eexists. split; [done|].
    intros acts t Hrun.
    by destruct (exhausted_no_goal d st acts t Ht Hcl Hrun). }
  pose proof Hinv as [Htp Hf Hw].
  assert (visited st cur) as Hcur by apply Hf.
  assert (tree_inv w start d st) as Ht by by eapply tree_inv_unpop.
  assert (size (prev st) ≤ state_space L R) as Hsize.
  { by apply (within_size L R (popped st rest)). }
  destruct (walk_back_trace d st Ht (d cur) cur eq_refl Hcur)
    as (acts & Hrun & Hlen & Hwalk).
  destruct (is_goal cur) eqn:Hgoal.
  - rewrite Hwalk.
    2: { apply (tree_depth _ _ _ _ Ht) in Hcur. simpl in Hfuel. lia. }
    eexists. split; [done|]. simpl. exists acts, cur.
    rewrite reverse_involutive. split; [done|]. split; [done|].
    split; [done|]. intros acts' goal' Hrun' Hgoal'. rewrite Hlen.
    by eapply front_optimal.
  - destruct (possible_actions w cur) as [succ|e] eqn:Hsucc.
    + destruct (expand_inv cur succ d (popped st rest) []) as (d' & Hexp & Hcount);
        [done|intros a v Hin; by exists succ|].
      simpl in Hexp, Hcount.
      set (st' := fold_left (discover cur) succ (popped st rest)) in *.
      assert (size (prev st') ≤ state_space L R) as Hsize'.
      { apply within_size. by destruct Hexp. }
      apply (IH st' d').
      * by eapply expanded_loop_inv.
      * simpl in Hfuel. lia.
    + eexists. split; [done|]. simpl.
      pose proof (possible_actions_Raise w _ _ Hsucc) as ->.
      split; [done|]. by exists acts, cur.
Qed.

Lemma bfs_start_inv :
  dog_pos start ∈ L → remaining_items start ⊆ R →
  loop_inv w start L R (λ _, 0) (bfs_start start).
Proof.
  intros HsL HsR. unfold loop_inv, bfs_start, popped. simpl.
  assert (∀ v, visited {| q := []; prev := {[start := None]};
                          prev_action := {[start := None]} |} v → v = start)
    as Hv.
  { intros v [x Hx]. simpl in Hx.
    by apply lookup_singleton_Some in Hx as [-> _]. }
  split.
  - split; simpl.
    + apply lookup_singleton_eq.
    + done.
    + intros v Hin. by apply elem_of_nil in Hin.
    + by intros v [-> _]%lookup_singleton_Some.
    + intros v p [_ ?]%lookup_singleton_Some. done.
    + intros v _. rewrite map_size_singleton. lia.
  - split; simpl.
    + eexists. apply lookup_singleton_eq.
    + intros v Hvis _ Hne. by apply Hv in Hvis.
    + intros a v Hin. by apply elem_of_nil in Hin.
    + lia.
    + intros u Hin. by apply elem_of_nil in Hin.
    + intros i j u v Hi. by rewrite lookup_nil in Hi.
  - intros v ->%Hv. done.
Qed.

(** The search from [start] ends within [search_bound] iterations, and its
    outcome means what [bfs_post] says. *)
Lemma bfs_plan_fuel_spec :
  dog_pos start ∈ L → remaining_items start ⊆ R →
  ∃ r, bfs_plan_fuel w (search_bound L R) start = Some r
    ∧ bfs_post w start r.
Proof.
  intros HsL HsR. pose proof (bfs_start_inv HsL HsR) as Hinv.
  apply (bfs_loop_spec _ _ (λ _, 0)); [done|].
  assert (size (prev (bfs_start start)) ≤ state_space L R) as Hsize.
  { apply (within_size L R (popped (bfs_start start) [])).
    by destruct Hinv. }
  unfold search_bound. simpl in *. rewrite map_size_singleton in *. lia.
Qed.

End SearchFacts.

(** *** Every state is enqueued at most once *)

Section Enqueue.
Context (w : World).

Lemma fold_discover_queue cur acts : ∀ st,
  ∃ news, q (fold_left (discover cur) acts st) = q st ++ news
    ∧ NoDup news
    ∧ (∀ v, v ∈ news → prev st !! v = None)
    ∧ (∀ v, visited (fold_left (discover cur) acts st) v
            ↔ visited st v ∨ v ∈ news).
Proof.
  induction acts as [|[a v] acts IH]; intros st; cbn [fold_left].
  - exists []. rewrite app_nil_r. split; [done|]. split; [constructor|].
    split; [by intros v ?%elem_of_nil|].
    intros v. split; [by left|]. by intros [?|?%elem_of_nil].
  - destruct (IH (discover cur st (a, v))) as (news & Hq & Hnd & Hnew & Hvis).
    destruct (decide (prev st !! v = None)) as [Hv|Hv].
    + rewrite discover_new in * by done. simpl in *.
      assert (v ∉ news) as Hvn.
      { intros Hin%Hnew. by rewrite lookup_insert_eq in Hin. }
      exists (v :: news). rewrite Hq, <- app_assoc. split; [done|].
      split; [by constructor|]. split.
      * intros x [->|Hx]%elem_of_cons; [done|].
        apply Hnew in Hx. by apply lookup_insert_None in Hx as [? _].
      * intros x. rewrite Hvis. unfold visited. simpl.
        rewrite lookup_insert_is_Some, elem_of_cons.
        destruct (decide (v = x)) as [->|]; naive_solver.
    + rewrite discover_old in * by by apply visited_not_None.
      by exists news.
Qed.

Lemma enqueued_fresh : ∀ fuel st,
  NoDup (enqueued w fuel st)
  ∧ ∀ v, v ∈ enqueued w fuel st → prev st !! v = None.
Proof.
  induction fuel as [|fuel IH]; intros st; simpl.
  { split; [constructor|by intros v ?%elem_of_nil]. }
  destruct (q st) as [|cur rest]; [|destruct (is_goal cur)];
    [split; [constructor|by intros v ?%elem_of_nil]..|].
  destruct (possible_actions w cur) as [acts|e];
    [|split; [constructor|by intros v ?%elem_of_nil]].
  destruct (fold_discover_queue cur acts (popped st rest))
    as (news & Hq & Hnd & Hnew & Hvis).
  destruct (IH (fold_left (discover cur) acts (popped st rest)))
    as [Hnd' Hnew'].
  simpl in Hq. rewrite Hq, drop_app_length.
  assert (∀ v, v ∈ enqueued w fuel
                     (fold_left (discover cur) acts (popped st rest)) →
               prev st !! v = None ∧ v ∉ news) as Hlater.
  { intros v Hv%Hnew'.
    assert (¬ visited (fold_left (discover cur) acts (popped st rest)) v)
      as Hnv by by apply eq_None_not_Some.
    rewrite Hvis in Hnv. split; [|tauto].
    apply eq_None_not_Some. intros Hs. apply Hnv. by left. }
  split.
  - apply NoDup_app. split; [done|]. split; [|done].
    intros v Hv Hv'. by apply Hlater in Hv' as [_ ?].
  - intros v [Hv|Hv]%elem_of_app; [by apply Hnew in Hv|].
    by apply Hlater in Hv as [? _].
Qed.

Lemma enqueued_once fuel start :
  NoDup (start :: enqueued w fuel (bfs_start start)).
Proof.
  destruct (enqueued_fresh fuel (bfs_start start)) as [Hnd Hnew].
  constructor; [|done]. intros Hin%Hnew. simpl in Hin.
  by rewrite lookup_singleton_eq in Hin.
Qed.

End Enqueue.

(** *** More iterations do not change the outcome *)

Section Fuel.
Context (w : World).

Lemma walk_back_mono st : ∀ fuel fuel' s plan r,
  walk_back fuel st s plan = Some r → fuel ≤ fuel' →
  walk_back fuel' st s plan = Some r.
Proof.
  induction fuel as [|fuel IH]; intros [|fuel'] s plan r H Hle;
    try done; try lia.
  simpl in *. destruct (subscript (prev st) s) as [[p|]|e]; [|done..].
  destruct (subscript (prev_action st) s) as [a|e]; [|done].
  apply IH; [done|lia].
Qed.

Lemma bfs_loop_mono : ∀ fuel fuel' st r,
  bfs_loop w fuel st = Some r → fuel ≤ fuel' →
  bfs_loop w fuel' st = Some r.
Proof.
  induction fuel as [|fuel IH]; intros [|fuel'] st r H Hle;
    try done; try lia.
  simpl in *. destruct (q st) as [|cur rest]; [done|].
  destruct (is_goal cur).
  - destruct (walk_back fuel st cur []) as [r'|] eqn:Hwalk; [|done].
    by rewrite (walk_back_mono st fuel fuel' cur [] r') by (done || lia).
  - destruct (possible_actions w cur) as [succ|e]; [|done].
    apply IH; [done|lia].
Qed.

Lemma bfs_plan_det start r1 r2 :
  bfs_plan w start r1 → bfs_plan w start r2 → r1 = r2.
Proof.
  intros [f1 H1] [f2 H2]. unfold bfs_plan_fuel in *.
  apply (bfs_loop_mono _ (f1 `max` f2)) in H1; [|lia].
  apply (bfs_loop_mono _ (f1 `max` f2)) in H2; [|lia].
  congruence.
Qed.

End Fuel.

(** ** Outcomes of the planner *)

Section Planner.
Context (w : World).

Lemma neighbours_within_locations start :
  neighbours_within w (locations w start).
Proof.
  intros l nbrs n Hg Hn. unfold locations.
  apply elem_of_union. right. apply elem_of_union_list.
  exists (list_to_set nbrs). split; [|by apply elem_of_list_to_set].
  apply list_elem_of_fmap. exists (l, nbrs).
  split; [done|]. by apply elem_of_map_to_list.
Qed.

Lemma neighbours_within_dom : closed_world w → neighbours_within w (dom (graph w)).
Proof.
  intros [Hg _] l nbrs n Hl Hn.
  apply (map_Forall_lookup_1 _ _ _ _ Hg) in Hl.
  rewrite Forall_forall in Hl. by apply Hl.
Qed.

(** The search always ends. *)
Lemma bfs_plan_ends start :
  ∃ r, bfs_plan_fuel w
         (search_bound (locations w start) (remaining_items start)) start
       = Some r
    ∧ bfs_post w start r.
Proof.
  apply bfs_plan_fuel_spec.
  - apply neighbours_within_locations.
  - unfold locations. set_solver.
  - done.
Qed.

(** Every outcome of the search means what [bfs_post] says. *)
Lemma bfs_plan_post start r : bfs_plan w start r → bfs_post w start r.
Proof.
  intros Hr. destruct (bfs_plan_ends start) as (r' & Hr' & Hpost).
  by rewrite (bfs_plan_det w start r r' Hr (ex_intro _ _ Hr')).
Qed.

(** *** Closed worlds *)

Lemma step_valid s a s' : closed_world w → valid w s → step w s a s' → valid w s'.
Proof.
  intros Hcw [Hpos Hk] Hstep. split.
  - apply elem_of_dom in Hpos as [nbrs Hg].
    eapply (neighbours_within_dom Hcw); [done|]. by eapply step_dog_pos.
  - eapply known_items_subseteq; [|done]. by eapply step_remaining.
Qed.

Lemma run_valid s acts t : closed_world w → valid w s → run w s acts t → valid w t.
Proof.
  intros Hcw Hs Hrun. induction Hrun as [s|s a s' acts s'' Hstep Hrun IH];
    [done|]. apply IH. by eapply step_valid.
Qed.

(** In a closed world the search from a valid state meets no missing key,
    and ends within the size of the state space. *)
Lemma bfs_plan_closed start :
  closed_world w → valid w start →
  ∃ r, bfs_plan_fuel w
         (search_bound (dom (graph w)) (remaining_items start)) start
       = Some (Ok r)
    ∧ bfs_post w start (Ok r).
Proof.
  intros Hcw Hv.
  destruct (bfs_plan_fuel_spec w start (dom (graph w)) (remaining_items start))
    as (r & Hr & Hpost); [by apply neighbours_within_dom|apply Hv|done|].
  destruct r as [r|e]; [by exists r|].
  destruct Hpost as (_ & acts & v & Hrun & Hraise).
  destruct (possible_actions_valid w v) as [succ Hsucc]; [|congruence].
  by eapply run_valid.
Qed.

Lemma initial_state_valid start_pos :
  start_pos ∈ dom (graph w) →
  ∃ s, initial_state w start_pos = Ok s ∧ valid w s.
Proof.
  intros Hpos. unfold initial_state.
  assert (known_items w (dom (item_start_pos w))) as Hk.
  { intros it Hit. by apply elem_of_dom. }
  rewrite auto_pickup_known by done. simpl. eexists. split; [done|].
  split; [done|]. simpl. eapply known_items_subseteq; [|done]. set_solver.
Qed.

End Planner.

(** ** Properties of the transition engine *)

Section EngineProperties.
Context (w : World).

Lemma items_here_collected pos (rem : gset string) :
  items_here w (mkState pos (rem ∖ items_here w (mkState pos rem))) = ∅.
Proof.
  apply set_eq. intros it. unfold items_here. simpl.
  rewrite elem_of_filter, elem_of_difference, elem_of_filter.
  split; [tauto|]. intros Hit. by apply not_elem_of_empty in Hit.
Qed.

Lemma found_nil s :
  items_here w s = ∅ →
  filter (λ it, item_start_pos w !! it = Some (dog_pos s))
    (elements (remaining_items s)) = [].
Proof.
  intros He. apply elem_of_nil_inv. intros it Hit.
  apply elem_of_found in Hit. rewrite He in Hit.
  by apply not_elem_of_empty in Hit.
Qed.

End EngineProperties.

(** C4: for every pair [(a, s')] emitted by [possible_actions s], the
    remaining items of [s'] are a subset of those of [s]; no transition makes
    the set of remaining items grow. *)
Theorem possible_actions_shrinks w s acts a s' :
  possible_actions w s = Ok acts → (a, s') ∈ acts →
  remaining_items s' ⊆ remaining_items s.
Proof. intros Hacts Hin. apply (step_remaining w s a). by exists acts. Qed.

Lemma possible_actions_shrinks_witness :
  remaining_items (mkState ROOM2 {[ITEM2]}) ⊆ remaining_items both_missing.
Proof.
  apply (possible_actions_shrinks shipped both_missing
           [("move room1 -> room2", mkState ROOM2 {[ITEM2]});
            ("move room1 -> room3", mkState ROOM3 {[ITEM1; ITEM2]})]
           "move room1 -> room2").
  - vm_compute. reflexivity.
  - left.
Defined.

(** C5, as the code has it: for every state [s] whose remaining items all
    have a home in [ITEM_START_POS], [auto_pickup s] returns a state and the
    list of the items [F] of [s] whose home is the dog's position; if [F] is
    empty the state is [s] and the list is empty, otherwise the state has the
    same position and exactly the items of [F] removed. *)
Theorem auto_pickup_post w s :
  known_items w (remaining_items s) →
  ∃ s' found, auto_pickup w s = Ok (s', found)
    ∧ (∀ it, it ∈ found ↔ it ∈ items_here w s)
    ∧ NoDup found
    ∧ (items_here w s = ∅ → s' = s ∧ found = [])
    ∧ (items_here w s ≠ ∅ →
       dog_pos s' = dog_pos s
       ∧ remaining_items s' = remaining_items s ∖ items_here w s).
Proof.
  intros Hk. eexists _, _. split; [by apply auto_pickup_known|].
  split; [apply elem_of_found|].
  split; [apply NoDup_filter, NoDup_elements|].
  split.
  - intros He. split; [|by apply found_nil].
    rewrite He, difference_empty_L. by destruct s.
  - done.
Qed.

Lemma auto_pickup_post_witness :
  ∃ s' found, auto_pickup shipped at_item1 = Ok (s', found)
    ∧ (∀ it, it ∈ found ↔ it ∈ items_here shipped at_item1)
    ∧ NoDup found
    ∧ (items_here shipped at_item1 = ∅ → s' = at_item1 ∧ found = [])
    ∧ (items_here shipped at_item1 ≠ ∅ →
       dog_pos s' = dog_pos at_item1
       ∧ remaining_items s'
         = remaining_items at_item1 ∖ items_here shipped at_item1).
Proof.
  apply (auto_pickup_post shipped at_item1).
  refine (bool_decide_unpack _ _). vm_compute. exact I.
Defined.

(** C5 as stated fails on a state with an item that has no home: no
    remaining item is located in the room, yet [auto_pickup] raises
    [KeyError] instead of returning the state unchanged. *)
Lemma auto_pickup_unknown_item_raises :
  items_here shipped unknown_item = ∅
  ∧ auto_pickup shipped unknown_item = Raise KeyError
  ∧ auto_pickup shipped unknown_item ≠ Ok (unknown_item, []).
Proof. split; [|split]; [by vm_compute..|]. by vm_compute. Qed.

(** C6: if [auto_pickup s] returns [(s1, f1)], then [auto_pickup s1] returns
    [s1] itself and an empty list. *)
Theorem auto_pickup_idempotent w s s1 f1 :
  auto_pickup w s = Ok (s1, f1) → auto_pickup w s1 = Ok (s1, []).
Proof.
  intros (Hk & -> & _)%auto_pickup_Ok.
  set (s1 := mkState (dog_pos s) (remaining_items s ∖ items_here w s)).
  assert (items_here w s1 = ∅) as He.
  { destruct s as [pos rem]. apply items_here_collected. }
  rewrite auto_pickup_known.
  - by rewrite found_nil, He, difference_empty_L.
  - eapply known_items_subseteq; [|done]. set_solver.
Qed.

Lemma auto_pickup_idempotent_witness :
  auto_pickup shipped (mkState ROOM2 {[ITEM2]}) = Ok (mkState ROOM2 {[ITEM2]}, []).
Proof.
  apply (auto_pickup_idempotent shipped at_item1
           (mkState ROOM2 {[ITEM2]}) [ITEM1]).
  vm_compute. reflexivity.
Defined.

(** C7, as the code has it: for every state [s] whose location is a key of
    the graph and whose remaining items all have a home, [possible_actions s]
    emits exactly one pair per neighbour [n], in the order of the neighbour
    list; the state of the pair is the result of [auto_pickup] on the state
    at [n] with the remaining items of [s], and the action is the move from
    [s.dog_pos] to [n]. *)
Theorem possible_actions_shape w s nbrs :
  graph w !! dog_pos s = Some nbrs →
  known_items w (remaining_items s) →
  ∃ acts, possible_actions w s = Ok acts
    ∧ possible_actions w s = expand w s nbrs
    ∧ Forall2 (λ n an, ∃ s' found,
        auto_pickup w (mkState n (remaining_items s)) = Ok (s', found)
        ∧ an = (move_label (dog_pos s) n, s')) nbrs acts.
Proof.
  intros Hg Hk. eexists. rewrite (possible_actions_expand w s nbrs) by done.
  split; [by apply expand_known|]. split; [done|].
  apply Forall2_fmap_r, Forall_Forall2_diag, Forall_forall.
  intros n _. eexists _, _. split; [by apply auto_pickup_known|done].
Qed.

Lemma possible_actions_shape_witness :
  ∃ acts, possible_actions shipped both_missing = Ok acts
    ∧ possible_actions shipped both_missing
      = expand shipped both_missing [ROOM2; ROOM3]
    ∧ Forall2 (λ n an, ∃ s' found,
        auto_pickup shipped (mkState n (remaining_items both_missing))
        = Ok (s', found)
        ∧ an = (move_label (dog_pos both_missing) n, s'))
        [ROOM2; ROOM3] acts.
Proof.
  apply (possible_actions_shape shipped both_missing [ROOM2; ROOM3]).
  - vm_compute. reflexivity.
  - refine (bool_decide_unpack _ _). vm_compute. exact I.
Defined.

(** C7 as stated fails on a state whose location is a key of the graph but
    which holds an item without a home: room1 has two neighbours, and
    [possible_actions] raises [KeyError] instead of emitting two pairs. *)
Lemma possible_actions_unknown_item_raises :
  graph shipped !! dog_pos unknown_item = Some [ROOM2; ROOM3]
  ∧ possible_actions shipped unknown_item = Raise KeyError.
Proof. split; by vm_compute. Qed.

(** ** Properties of the planner *)

(** C1: if [bfs_plan s] returns a plan, the plan is a sequence of legal
    transitions from [s] to a goal state, and no sequence of legal transitions
    from [s] to a goal state is shorter. *)
Theorem bfs_plan_shortest w s plan :
  bfs_plan w s (Ok (Some plan)) →
  (∃ acts goal, plan = Some <$> acts ∧ run w s acts goal
     ∧ is_goal goal = true)
  ∧ ∀ acts' goal', run w s acts' goal' → is_goal goal' = true →
      length plan ≤ length acts'.
Proof.
  intros (acts & goal & -> & Hrun & Hgoal & Hmin)%bfs_plan_post.
  split; [by exists acts, goal|].
  intros acts' goal' Hrun' Hgoal'. rewrite length_fmap. by eapply Hmin.
Qed.

Lemma bfs_plan_shortest_witness :
  (∃ acts goal, both_missing_plan = Some <$> acts
     ∧ run shipped both_missing acts goal ∧ is_goal goal = true)
  ∧ ∀ acts' goal', run shipped both_missing acts' goal' →
      is_goal goal' = true → length both_missing_plan ≤ length acts'.
Proof.
  apply (bfs_plan_shortest shipped both_missing both_missing_plan).
  exists 20. vm_compute. reflexivity.
Defined.

(** C2: if [bfs_plan s] returns a plan, replaying it from [s], each step
    matched against the pairs of [possible_actions] of the current state,
    finds a matching pair at every step and ends, after as many transitions
    as the plan has entries, in a state where [is_goal] holds. *)
Theorem bfs_plan_replays w s plan :
  bfs_plan w s (Ok (Some plan)) →
  ∃ acts goal, plan = Some <$> acts ∧ length acts = length plan
    ∧ run w s acts goal
    ∧ execute_plan w plan s = Ok goal
    ∧ is_goal goal = true.
Proof.
  intros (acts & goal & -> & Hrun & Hgoal & _)%bfs_plan_post.
  exists acts, goal. rewrite length_fmap.
  repeat split; try done. by apply run_execute_plan.
Qed.

Lemma bfs_plan_replays_witness :
  ∃ acts goal, both_missing_plan = Some <$> acts
    ∧ length acts = length both_missing_plan
    ∧ run shipped both_missing acts goal
    ∧ execute_plan shipped both_missing_plan both_missing = Ok goal
    ∧ is_goal goal = true.
Proof.
  apply (bfs_plan_replays shipped both_missing both_missing_plan).
  exists 20. vm_compute. reflexivity.
Defined.

(** C3, as the code has it: [bfs_plan] ends for every start state, and no
    state is enqueued twice; in a closed world, from a start state whose
    location is a key of the graph and whose remaining items all have a home,
    it ends within 2 * |locations| * 2^|items| + 1 iterations without
    raising, and it returns [None] exactly when no goal state can be
    reached. *)
Theorem bfs_plan_terminates w s :
  (∃ r, bfs_plan w s r)
  ∧ (∀ fuel, NoDup (s :: enqueued w fuel (bfs_start s)))
  ∧ (closed_world w → valid w s →
     ∃ r, bfs_plan_fuel w
            (search_bound (dom (graph w)) (remaining_items s)) s
          = Some (Ok r)
       ∧ (r = None ↔ ∀ acts t, run w s acts t → is_goal t = false)).
Proof.
  split; [|split].
  - destruct (bfs_plan_ends w s) as (r & Hr & _). exists r. by eexists.
  - intros fuel. apply enqueued_once.
  - intros Hcw Hv. destruct (bfs_plan_closed w s Hcw Hv) as (r & Hr & Hpost).
    exists r. split; [done|]. destruct r as [plan|]; simpl in Hpost.
    + split; [done|]. intros Hnone.
      destruct Hpost as (acts & goal & _ & Hrun & Hgoal & _).
      rewrite (Hnone _ _ Hrun) in Hgoal. done.
    + done.
Qed.

Lemma bfs_plan_terminates_witness :
  ∃ r, bfs_plan_fuel island
         (search_bound (dom (graph island)) (remaining_items in_hall)) in_hall
       = Some (Ok r)
    ∧ (r = None ↔ ∀ acts t, run island in_hall acts t → is_goal t = false).
Proof.
  apply (proj2 (proj2 (bfs_plan_terminates island in_hall))).
  - refine (bool_decide_unpack _ _). vm_compute. exact I.
  - split.
    + refine (bool_decide_unpack _ _). vm_compute. exact I.
    + refine (bool_decide_unpack _ _). vm_compute. exact I.
Defined.

(** C3 as stated fails on a start state whose location is no key of the
    graph: no goal state can be reached from it, and [bfs_plan] raises
    [KeyError] instead of returning [None]. *)
Lemma bfs_plan_unknown_location_raises :
  (∀ acts t, run shipped in_garden acts t → is_goal t = false)
  ∧ bfs_plan shipped in_garden (Raise KeyError)
  ∧ ¬ bfs_plan shipped in_garden (Ok None).
Proof.
  assert (bfs_plan shipped in_garden (Raise KeyError)) as Hraise.
  { exists 1. by vm_compute. }
  split; [|split; [done|]].
  - intros acts t Hrun. inversion Hrun as [|? a s' ? ? Hstep]; subst.
    + by vm_compute.
    + destruct Hstep as (succ & Hsucc & _). by vm_compute in Hsucc.
  - intros Hnone. by pose proof (bfs_plan_det _ _ _ _ Hraise Hnone).
Qed.

(** The no-plan outcome does occur: on the island the bone is out of reach. *)
Example island_no_plan : bfs_plan island in_hall (Ok None).
Proof. exists 5. by vm_compute. Qed.

Lemma island_unreachable acts t :
  run island in_hall acts t → is_goal t = false.
Proof. apply (bfs_plan_post island in_hall (Ok None) island_no_plan). Qed.

(** C8: from a state where [is_goal] holds, [bfs_plan] returns the empty
    plan, and only that; the empty plan is returned from no other start;
    the no-plan outcome [None] is a different result, returned only when no
    goal state can be reached from the start, and when no goal state can be
    reached the search returns no plan at all: it returns [None], unless a
    lookup raises, which a closed world excludes. *)
Theorem goal_start_empty_plan w s :
  (is_goal s = true →
   bfs_plan_fuel w 2 s = Some (Ok (Some []))
   ∧ ∀ r, bfs_plan w s r → r = Ok (Some []))
  ∧ (bfs_plan w s (Ok (Some [])) → is_goal s = true)
  ∧ Ok (Some []) ≠ (Ok None : result (option Plan))
  ∧ (bfs_plan w s (Ok None) →
     is_goal s = false ∧ ∀ acts t, run w s acts t → is_goal t = false)
  ∧ ((∀ acts t, run w s acts t → is_goal t = false) →
     (∀ r, bfs_plan w s r → r = Ok None ∨ r = Raise KeyError)
     ∧ (closed_world w → valid w s → bfs_plan w s (Ok None))).
Proof.
  split; [|split; [|split; [done|split]]].
  - intros Hgoal.
    assert (bfs_plan_fuel w 2 s = Some (Ok (Some []))) as Hplan.
    { unfold bfs_plan_fuel. simpl. rewrite Hgoal. unfold subscript.
      by rewrite lookup_singleton_eq. }
    split; [done|].
    intros r Hr. apply (bfs_plan_det w s); [done|by exists 2].
  - intros (acts & goal & Heq & Hrun & Hgoal & _)%bfs_plan_post.
    destruct acts; [|done]. by apply run_nil_inv in Hrun as ->.
  - intros Hnone%bfs_plan_post. simpl in Hnone.
    split; [|done]. apply (Hnone []). constructor.
  - intros Hfar. split.
    + intros r Hr. pose proof (bfs_plan_post w s r Hr) as Hpost.
      destruct r as [[plan|]|e]; simpl in Hpost.
      * destruct Hpost as (acts & goal & _ & Hrun & Hgoal & _).
        rewrite (Hfar _ _ Hrun) in Hgoal. done.
      * by left.
      * destruct Hpost as [-> _]. by right.
    + intros Hcw Hv.
      destruct (bfs_plan_closed w s Hcw Hv) as (r & Hr & Hpost).
      destruct r as [plan|]; [|by eexists].
      destruct Hpost as (acts & goal & _ & Hrun & Hgoal & _).
      rewrite (Hfar _ _ Hrun) in Hgoal. done.
Qed.

Lemma goal_start_empty_plan_witness :
  (bfs_plan_fuel shipped 2 all_found = Some (Ok (Some []))
   ∧ ∀ r, bfs_plan shipped all_found r → r = Ok (Some []))
  ∧ is_goal all_found = true
  ∧ ((∀ r, bfs_plan island in_hall r → r = Ok None ∨ r = Raise KeyError)
     ∧ bfs_plan island in_hall (Ok None)).
Proof.
  assert (is_goal all_found = true) as Hgoal by (vm_compute; reflexivity).
  pose proof (goal_start_empty_plan shipped all_found)
    as (Hempty & Honly & _).
  pose proof (goal_start_empty_plan island in_hall)
    as (_ & _ & _ & _ & Hfar).
  split; [exact (Hempty Hgoal)|]. split.
  - apply Honly. exists 2. vm_compute. reflexivity.
  - destruct (Hfar island_unreachable) as [Hnone Hclosed].
    split; [exact Hnone|]. apply Hclosed.
    + refine (bool_decide_unpack _ _). vm_compute. exact I.
    + split.
      * refine (bool_decide_unpack _ _). vm_compute. exact I.
      * refine (bool_decide_unpack _ _). vm_compute. exact I.
Defined.

(** ** The shipped world *)

Lemma shipped_closed : closed_world shipped.
Proof. refine (bool_decide_unpack _ _). vm_compute. exact I. Qed.

Lemma dom_GRAPH l :
  l ∈ dom GRAPH →
  l ∈ [ROOM1; ROOM2; ROOM3; ROOM4; ROOM5; OUTSIDE1; OUTSIDE2].
Proof.
  intros [nbrs Hl]%elem_of_dom. unfold GRAPH in Hl.
  apply elem_of_list_to_map_2 in Hl.
  repeat (apply elem_of_cons in Hl as [[= -> _]|Hl]; [set_solver|]).
  by apply elem_of_nil in Hl.
Qed.

(** C9: the shipped tables form a closed world, and from the initial state
    at any key of [GRAPH] every reachable state has its location in [GRAPH]
    and its items in [ITEM_START_POS], so that neither the subscript of
    [possible_actions] nor the one of [items_in_room] raises. *)
Theorem shipped_lookups_safe :
  closed_world shipped
  ∧ ∀ start_pos, start_pos ∈ dom GRAPH →
      ∃ s0, initial_state shipped start_pos = Ok s0
        ∧ ∀ acts s, run shipped s0 acts s →
            is_Some (GRAPH !! dog_pos s)
            ∧ (∀ it, it ∈ remaining_items s → is_Some (ITEM_START_POS !! it))
            ∧ (∀ room, ∃ found,
                 items_in_room shipped room (remaining_items s) = Ok found)
            ∧ ∃ succ, possible_actions shipped s = Ok succ.
Proof.
  split; [apply shipped_closed|]. intros start_pos Hpos.
  destruct (initial_state_valid shipped start_pos Hpos) as (s0 & Hs0 & Hv0).
  exists s0. split; [done|]. intros acts s Hrun.
  pose proof (run_valid shipped s0 acts s shipped_closed Hv0 Hrun) as Hv.
  pose proof (possible_actions_valid shipped s Hv) as Hsucc.
  destruct Hv as [Hloc Hk].
  split; [exact (proj1 (elem_of_dom _ _) Hloc)|].
  split; [exact Hk|]. split; [|exact Hsucc].
  intros room. eexists. exact (items_in_room_known shipped room _ Hk).
Qed.

Lemma shipped_lookups_safe_witness :
  ∃ s0, initial_state shipped ROOM1 = Ok s0
    ∧ ∀ acts s, run shipped s0 acts s →
        is_Some (GRAPH !! dog_pos s)
        ∧ (∀ it, it ∈ remaining_items s → is_Some (ITEM_START_POS !! it))
        ∧ (∀ room, ∃ found,
             items_in_room shipped room (remaining_items s) = Ok found)
        ∧ ∃ succ, possible_actions shipped s = Ok succ.
Proof.
  apply (proj2 shipped_lookups_safe ROOM1).
  refine (bool_decide_unpack _ _). vm_compute. exact I.
Defined.

Lemma forallb_elem {A} (f : A → bool) (l : list A) (x : A) :
  forallb f l = true → x ∈ l → f x = true.
Proof.
  induction l as [|y l IH]; intros Hall Hin.
  - by apply elem_of_nil in Hin.
  - simpl in Hall. apply andb_true_iff in Hall as [Hy Hl].
    apply elem_of_cons in Hin as [->|Hin]; [done|by apply IH].
Qed.

Lemma shipped_states_have_plans :
  forallb
    (λ s, found_plan
            (bfs_plan_fuel shipped
               (search_bound (dom GRAPH) {[ITEM1; ITEM2]}) s))
    (candidates (dom GRAPH) {[ITEM1; ITEM2]}) = true.
Proof. vm_compute. reflexivity. Qed.

Lemma shipped_linked l :
  l ∈ dom GRAPH → linked shipped l ROOM2 ∧ linked shipped l ROOM5.
Proof.
  intros Hl%dom_GRAPH.
  assert (∀ a b c nbrs, graph shipped !! a = Some nbrs → b ∈ nbrs →
            linked shipped b c → linked shipped a c) as Hhop.
  { intros a b c nbrs Hg Hb Hbc. by eapply linked_hop. }
  assert (linked shipped ROOM4 ROOM5) as H45.
  { eapply (Hhop _ ROOM5); [by vm_compute|set_solver|constructor]. }
  assert (linked shipped ROOM3 ROOM5) as H35.
  { eapply (Hhop _ ROOM4); [by vm_compute|set_solver|done]. }
  assert (linked shipped ROOM3 ROOM2) as H32.
  { eapply (Hhop _ ROOM2); [by vm_compute|set_solver|constructor]. }
  assert (linked shipped ROOM4 ROOM2) as H42.
  { eapply (Hhop _ ROOM3); [by vm_compute|set_solver|done]. }
  repeat (apply elem_of_cons in Hl as [->|Hl]); [..|by apply elem_of_nil in Hl];
    split; try done; try constructor.
  - eapply (Hhop _ ROOM2); [by vm_compute|set_solver|constructor].
  - eapply (Hhop _ ROOM3); [by vm_compute|set_solver|done].
  - eapply (Hhop _ ROOM3); [by vm_compute|set_solver|done].
  - eapply (Hhop _ ROOM4); [by vm_compute|set_solver|done].
  - eapply (Hhop _ ROOM3); [by vm_compute|set_solver|done].
  - eapply (Hhop _ ROOM3); [by vm_compute|set_solver|done].
  - eapply (Hhop _ ROOM3); [by vm_compute|set_solver|done].
  - eapply (Hhop _ ROOM4); [by vm_compute|set_solver|done].
Qed.

(** C10: in the shipped world, from every state whose location is one of the
    seven keys of [GRAPH] and whose remaining items are among item1 and
    item2, [bfs_plan] returns a plan and never [None]; the plan is a sequence
    of legal transitions from the state to a goal state, its replay ends in
    that goal state, and no sequence of legal transitions to a goal state is
    shorter; every location has a directed path to room2 and to room5, the
    homes of the two items. *)
Theorem shipped_plan_exists s :
  dog_pos s ∈ dom GRAPH → remaining_items s ⊆ {[ITEM1; ITEM2]} →
  (∃ plan acts goal,
     bfs_plan shipped s (Ok (Some plan))
     ∧ plan = Some <$> acts
     ∧ run shipped s acts goal
     ∧ is_goal goal = true
     ∧ execute_plan shipped plan s = Ok goal
     ∧ ∀ acts' goal', run shipped s acts' goal' → is_goal goal' = true →
         length plan ≤ length acts')
  ∧ ¬ bfs_plan shipped s (Ok None)
  ∧ (∀ e, ¬ bfs_plan shipped s (Raise e))
  ∧ linked shipped (dog_pos s) ROOM2 ∧ linked shipped (dog_pos s) ROOM5.
Proof.
  intros Hpos Hrem.
  pose proof (candidates_complete _ _ _ Hpos Hrem) as Hin.
  pose proof (forallb_elem _ _ _ shipped_states_have_plans Hin) as Hall.
  cbv beta in Hall.
  destruct (bfs_plan_fuel shipped
              (search_bound (dom GRAPH) {[ITEM1; ITEM2]}) s)
    as [[[plan|]|]|] eqn:E; try discriminate Hall.
  assert (bfs_plan shipped s (Ok (Some plan))) as Hplan.
  { eexists. exact E. }
  split; [|split; [|split; [|exact (shipped_linked _ Hpos)]]].
  - pose proof (bfs_plan_post shipped s _ Hplan)
      as (acts & goal & Heq & Hrun & Hgoal & Hmin).
    exists plan, acts, goal. split; [exact Hplan|]. split; [exact Heq|].
    split; [exact Hrun|]. split; [exact Hgoal|]. split.
    + rewrite Heq. exact (run_execute_plan shipped s acts goal Hrun).
    + intros acts' goal' Hrun' Hgoal'. rewrite Heq, length_fmap.
      exact (Hmin acts' goal' Hrun' Hgoal').
  - intros Hnone. pose proof (bfs_plan_det _ _ _ _ Hplan Hnone) as Heq.
    discriminate Heq.
  - intros e Hraise. pose proof (bfs_plan_det _ _ _ _ Hplan Hraise) as Heq.
    discriminate Heq.
Qed.

Lemma shipped_plan_exists_witness :
  (∃ plan acts goal,
     bfs_plan shipped both_missing (Ok (Some plan))
     ∧ plan = Some <$> acts
     ∧ run shipped both_missing acts goal
     ∧ is_goal goal = true
     ∧ execute_plan shipped plan both_missing = Ok goal
     ∧ ∀ acts' goal', run shipped both_missing acts' goal' →
         is_goal goal' = true → length plan ≤ length acts')
  ∧ ¬ bfs_plan shipped both_missing (Ok None)
  ∧ (∀ e, ¬ bfs_plan shipped both_missing (Raise e))
  ∧ linked shipped (dog_pos both_missing) ROOM2
  ∧ linked shipped (dog_pos both_missing) ROOM5.
Proof.
  apply (shipped_plan_exists both_missing).
  - refine (bool_decide_unpack _ _). vm_compute. exact I.
  - refine (bool_decide_unpack _ _). vm_compute. exact I.
Defined.

(** ** Further properties of the transition engine *)

Section MoreEngineFacts.
Context (w : World).

Lemma run_app s l1 l2 t :
  run w s (l1 ++ l2) t ↔ ∃ u, run w s l1 u ∧ run w u l2 t.
Proof.
  revert s. induction l1 as [|a l1 IH]; intros s; simpl.
  - split; [intros H; exists s; split; [constructor|done]|].
    intros (u & ->%run_nil_inv & H). done.
  - split.
    + intros H. inversion H as [|? ? s' ? ? Hstep Hrest]; subst.
      apply IH in Hrest as (u & Hu & Ht). exists u.
      split; [by eapply run_cons|done].
    + intros (u & Hu & Ht).
      inversion Hu as [|? ? s' ? ? Hstep Hrest]; subst.
      eapply run_cons; [done|]. apply IH. by exists u.
Qed.

Lemma run_det s acts t1 t2 : run w s acts t1 → run w s acts t2 → t1 = t2.
Proof.
  intros H1. revert t2.
  induction H1 as [s|s a s' acts s'' Hstep Hrun IH]; intros t2 H2.
  - by apply run_nil_inv in H2.
  - inversion H2 as [|? ? s2 ? ? Hstep2 Hrest2]; subst.
    rewrite (step_det w s a s2 s' Hstep2 Hstep) in Hrest2. by apply IH.
Qed.

Lemma arrive_settled s n : settled w (arrive w s n).
Proof. apply items_here_collected. Qed.

Lemma step_settled s a s' : step w s a s' → settled w s'.
Proof.
  intros H. apply step_inv in H as (nbrs & n & Hg & Hn & Hk & -> & ->).
  apply arrive_settled.
Qed.

Lemma run_known s a acts t :
  run w s (a :: acts) t → known_items w (remaining_items s).
Proof.
  inversion 1 as [|? ? s' ? ? Hstep Hrest]; subst.
  by apply step_inv in Hstep as (nbrs & n & Hg & Hn & Hk & _).
Qed.

(** A run is a trail of the graph: its actions are the labels of the trail,
    and its last state has lost exactly the items whose home is on it. *)
Lemma run_trail s acts t :
  run w s acts t →
  ∃ locs, trail w (dog_pos s) locs
    ∧ acts = trail_labels (dog_pos s) locs
    ∧ dog_pos t = default (dog_pos s) (last locs)
    ∧ remaining_items t = filter (off_trail w locs) (remaining_items s).
Proof.
  induction 1 as [s|s a s' acts s'' Hstep Hrun IH].
  - exists []. split; [constructor|]. split; [done|]. split; [done|].
    apply set_eq. intros it. rewrite elem_of_filter. unfold off_trail.
    split; [|tauto]. intros Hit. split; [|done].
    destruct (item_start_pos w !! it); [apply not_elem_of_nil|done].
  - destruct IH as (locs & Htrail & -> & Hpos & Hrem).
    apply step_inv in Hstep as (nbrs & n & Hg & Hn & Hk & -> & ->).
    simpl in *. exists (n :: locs). split; [by econstructor|].
    split; [done|]. split.
    + rewrite Hpos, last_cons. by destruct (last locs).
    + rewrite Hrem. apply set_eq. intros it.
      rewrite !elem_of_filter, elem_of_difference. unfold items_here. simpl.
      rewrite elem_of_filter. unfold off_trail.
      destruct (item_start_pos w !! it) as [home|] eqn:Hhome.
      * rewrite not_elem_of_cons. split.
        -- intros (Hoff & Hit & Hnot). split; [|done].
           split; [|done]. intros ->. apply Hnot. by split.
        -- intros ([Hne Hoff] & Hit). split; [done|]. split; [done|].
           intros [Heq _]. congruence.
      * split; [intros (_ & Hit & _); by split|].
        intros (_ & Hit). split; [done|]. split; [done|]. by intros [? _].
Qed.

End MoreEngineFacts.

(** X1: [items_in_room] raises [KeyError] exactly when a remaining item has
    no entry in [ITEM_START_POS]; otherwise it returns, without repetition,
    exactly the remaining items whose home is the room. *)
Theorem items_in_room_outcome w room its :
  match items_in_room w room its with
  | Ok found =>
      known_items w its ∧ NoDup found
      ∧ ∀ it, it ∈ found ↔ it ∈ its ∧ item_start_pos w !! it = Some room
  | Raise e => e = KeyError ∧ ¬ known_items w its
  end.
Proof.
  destruct (decide (known_items w its)) as [Hk|Hk].
  - rewrite items_in_room_known by done. split; [done|].
    split; [apply NoDup_filter, NoDup_elements|].
    intros it. rewrite list_elem_of_filter, elem_of_elements. tauto.
  - by rewrite items_in_room_unknown.
Qed.

(** X2: [auto_pickup] raises [KeyError] exactly when a remaining item has no
    home; otherwise the dog stays where it is, the returned list and the new
    remaining set split the old remaining set in two disjoint parts, no
    remaining item is left at the dog's position, and the list is empty
    exactly when the state is unchanged. *)
Theorem auto_pickup_outcome w s :
  match auto_pickup w s with
  | Ok (s', found) =>
      known_items w (remaining_items s)
      ∧ dog_pos s' = dog_pos s
      ∧ remaining_items s' ∪ list_to_set found = remaining_items s
      ∧ (∀ it, it ∈ found → it ∉ remaining_items s')
      ∧ settled w s'
      ∧ (found = [] ↔ s' = s)
  | Raise e => e = KeyError ∧ ¬ known_items w (remaining_items s)
  end.
Proof.
  destruct (decide (known_items w (remaining_items s))) as [Hk|Hk];
    [|by rewrite auto_pickup_unknown].
  rewrite auto_pickup_known by done. split; [done|]. split; [done|].
  pose proof (elem_of_found w s) as Hfound. simpl.
  assert (items_here w s ⊆ remaining_items s) as Hsub.
  { intros it. unfold items_here. rewrite elem_of_filter. tauto. }
  split; [|split; [|split; [|split]]].
  - apply set_eq. intros it.
    rewrite elem_of_union, elem_of_difference, elem_of_list_to_set, Hfound.
    destruct (decide (it ∈ items_here w s)); set_solver.
  - intros it Hit%Hfound. rewrite elem_of_difference. tauto.
  - destruct s as [pos rem]. apply items_here_collected.
  - intros Hnil. assert (items_here w s = ∅) as He.
    { apply set_eq. intros it. rewrite <- Hfound, Hnil.
      split; [by intros ?%elem_of_nil|by intros ?%not_elem_of_empty]. }
    rewrite He, difference_empty_L. by destruct s.
  - intros Heq. apply found_nil. apply set_eq. intros it.
    split; [|by intros ?%not_elem_of_empty]. intros Hit.
    assert (it ∈ remaining_items s ∖ items_here w s) as Hd.
    { apply (f_equal remaining_items) in Heq. simpl in Heq.
      rewrite Heq. by apply Hsub. }
    apply elem_of_difference in Hd. tauto.
Qed.

(** X3: [initial_state] never raises, whatever the start position, even one
    that is no key of [GRAPH]: it returns the state at that position whose
    remaining items are exactly the items with a home elsewhere. *)
Theorem initial_state_outcome w start_pos :
  ∃ s, initial_state w start_pos = Ok s
    ∧ dog_pos s = start_pos
    ∧ (∀ it, it ∈ remaining_items s ↔
         ∃ home, item_start_pos w !! it = Some home ∧ home ≠ start_pos)
    ∧ settled w s.
Proof.
  unfold initial_state.
  assert (known_items w (dom (item_start_pos w))) as Hk.
  { intros it Hit. by apply elem_of_dom. }
  rewrite auto_pickup_known by done. simpl. eexists. split; [done|].
  split; [done|]. split; [|apply items_here_collected].
  intros it. simpl. rewrite elem_of_difference. unfold items_here. simpl.
  rewrite elem_of_filter, elem_of_dom. split.
  - intros [[home Hhome] Hnot]. exists home. split; [done|].
    intros ->. apply Hnot. split; [done|by eexists].
  - intros (home & Hhome & Hne). split; [by eexists|].
    intros [Heq _]. congruence.
Qed.

(** X4: [possible_actions] raises only [KeyError], and exactly when the
    dog's position is no key of [GRAPH], or it has a neighbour and a
    remaining item has no home; at a key without neighbours it returns the
    empty list whatever the items are. *)
Theorem possible_actions_outcome w s :
  match possible_actions w s with
  | Ok acts =>
      ∃ nbrs, graph w !! dog_pos s = Some nbrs
        ∧ length acts = length nbrs
        ∧ (nbrs = [] ∨ known_items w (remaining_items s))
  | Raise e =>
      e = KeyError
      ∧ (graph w !! dog_pos s = None
         ∨ (∃ nxt rest, graph w !! dog_pos s = Some (nxt :: rest))
           ∧ ¬ known_items w (remaining_items s))
  end.
Proof.
  destruct (graph w !! dog_pos s) as [nbrs|] eqn:Hg.
  2: { unfold possible_actions, subscript. rewrite Hg. simpl. by split; [|left]. }
  rewrite (possible_actions_expand w s nbrs) by done.
  destruct (decide (known_items w (remaining_items s))) as [Hk|Hk].
  { rewrite expand_known by done. exists nbrs. rewrite length_fmap. auto. }
  destruct nbrs as [|nxt rest].
  { simpl. exists []. auto. }
  simpl. unfold expand_one. rewrite auto_pickup_unknown by done. simpl.
  split; [done|]. right. split; [by eauto|done].
Qed.

(** X5: every pair [(a, s')] emitted by [possible_actions s] leads to a
    neighbour of the dog's position, [a] is the text of the move to the
    position of [s'], the items dropped from the remaining set are exactly
    those whose home is the new position, and no remaining item of [s'] is
    at the new position. *)
Theorem possible_actions_pair w s acts a s' :
  possible_actions w s = Ok acts → (a, s') ∈ acts →
  (∃ nbrs, graph w !! dog_pos s = Some nbrs ∧ dog_pos s' ∈ nbrs)
  ∧ a = move_label (dog_pos s) (dog_pos s')
  ∧ (∀ it, it ∈ remaining_items s' ↔
       it ∈ remaining_items s ∧ item_start_pos w !! it ≠ Some (dog_pos s'))
  ∧ settled w s'.
Proof.
  intros Hacts Hin. assert (step w s a s') as Hstep by by exists acts.
  pose proof (step_settled w _ _ _ Hstep) as Hset.
  apply step_inv in Hstep as (nbrs & n & Hg & Hn & Hk & -> & ->).
  split; [by exists nbrs|]. split; [done|]. split; [|done].
  intros it. simpl. rewrite elem_of_difference. unfold items_here. simpl.
  rewrite elem_of_filter. tauto.
Qed.

Lemma possible_actions_pair_witness :
  (∃ nbrs, graph shipped !! dog_pos both_missing = Some nbrs
     ∧ dog_pos (mkState ROOM2 {[ITEM2]}) ∈ nbrs)
  ∧ "move room1 -> room2"
    = move_label (dog_pos both_missing) (dog_pos (mkState ROOM2 {[ITEM2]}))
  ∧ (∀ it, it ∈ remaining_items (mkState ROOM2 {[ITEM2]}) ↔
       it ∈ remaining_items both_missing
       ∧ item_start_pos shipped !! it
         ≠ Some (dog_pos (mkState ROOM2 {[ITEM2]})))
  ∧ settled shipped (mkState ROOM2 {[ITEM2]}).
Proof.
  apply (possible_actions_pair shipped both_missing
           [("move room1 -> room2", mkState ROOM2 {[ITEM2]});
            ("move room1 -> room3", mkState ROOM3 {[ITEM1; ITEM2]})]).
  - vm_compute. reflexivity.
  - left.
Defined.

(** X6: among the pairs emitted by [possible_actions s], two pairs carry the
    same action text exactly when they lead to the same position, and then
    their states are equal: the text identifies the successor. *)
Theorem possible_actions_label_determines w s acts a1 s1 a2 s2 :
  possible_actions w s = Ok acts → (a1, s1) ∈ acts → (a2, s2) ∈ acts →
  (a1 = a2 ↔ dog_pos s1 = dog_pos s2) ∧ (a1 = a2 → s1 = s2).
Proof.
  intros Hacts H1 H2.
  assert (step w s a1 s1) as Hs1 by by exists acts.
  assert (step w s a2 s2) as Hs2 by by exists acts.
  apply step_inv in Hs1 as (nbrs1 & n1 & Hg1 & Hn1 & Hk1 & -> & ->).
  apply step_inv in Hs2 as (nbrs2 & n2 & Hg2 & Hn2 & Hk2 & -> & ->).
  simpl. split; [split|].
  - apply move_label_inj.
  - by intros ->.
  - by intros ->%move_label_inj.
Qed.

Lemma possible_actions_label_determines_witness :
  ("move room1 -> room2" = "move room1 -> room3"
   ↔ dog_pos (mkState ROOM2 {[ITEM2]})
     = dog_pos (mkState ROOM3 {[ITEM1; ITEM2]}))
  ∧ ("move room1 -> room2" = "move room1 -> room3" →
     mkState ROOM2 {[ITEM2]} = mkState ROOM3 {[ITEM1; ITEM2]}).
Proof.
  apply (possible_actions_label_determines shipped both_missing
           [("move room1 -> room2", mkState ROOM2 {[ITEM2]});
            ("move room1 -> room3", mkState ROOM3 {[ITEM1; ITEM2]})]).
  - vm_compute. reflexivity.
  - left.
  - right. left.
Defined.

(** ** Further properties of runs, plans and their execution *)

Section MorePlanFacts.
Context (w : World).

Lemma is_goal_empty s : is_goal s = true ↔ remaining_items s = ∅.
Proof.
  unfold is_goal.
  by rewrite bool_decide_eq_true, size_empty_iff, leibniz_equiv_iff.
Qed.

Lemma bfs_plan_fuel_goal s :
  is_goal s = true → bfs_plan_fuel w 2 s = Some (Ok (Some [])).
Proof.
  intros Hgoal. unfold bfs_plan_fuel. simpl. rewrite Hgoal.
  unfold subscript. by rewrite lookup_singleton_eq.
Qed.

(** After a run, the plan execution continues from the state the run ends
    in. *)
Lemma execute_plan_after_run s acts t rest :
  run w s acts t →
  execute_plan w ((Some <$> acts) ++ rest) s = execute_plan w rest t.
Proof.
  induction 1 as [s|s a s' acts s'' Hstep Hrun IH]; [done|].
  pose proof Hstep as (l & Hl & Hin). simpl. rewrite Hl. simpl.
  destruct (filter (λ an : string * State, Some an.1 = Some a) l)
    as [|[a' ns] tl] eqn:E.
  - assert ((a, s') ∈ filter (λ an : string * State, Some an.1 = Some a) l)
      as Hf by (by apply list_elem_of_filter).
    rewrite E in Hf. by apply elem_of_nil in Hf.
  - assert ((a', ns) ∈ filter (λ an : string * State, Some an.1 = Some a) l)
      as Hf by (rewrite E; left).
    apply list_elem_of_filter in Hf as [Ha Hns]. simpl in Ha.
    assert (a' = a) as -> by congruence.
    assert (ns = s') as ->; [|done].
    apply (step_det w s a); [by exists l|done].
Qed.

(** What each outcome of [execute_plan] means. *)
Lemma execute_plan_outcome plan : ∀ s,
  match execute_plan w plan s with
  | Ok t => ∃ acts, plan = Some <$> acts ∧ run w s acts t
  | Raise e =>
      ∃ acts step rest t,
        plan = (Some <$> acts) ++ step :: rest ∧ run w s acts t
        ∧ match e with
          | KeyError => possible_actions w t = Raise KeyError
          | RuntimeError =>
              ∃ l, possible_actions w t = Ok l
                ∧ ∀ an, an ∈ l → Some an.1 ≠ step
          end
  end.
Proof.
  induction plan as [|step rest IH]; intros s; simpl.
  { exists []. split; [done|constructor]. }
  destruct (possible_actions w s) as [l|e] eqn:Hl; simpl.
  2: { pose proof (possible_actions_Raise w _ _ Hl) as ->.
       exists [], step, rest, s. split; [done|]. split; [constructor|done]. }
  destruct (filter (λ an : string * State, Some an.1 = step) l)
    as [|[a ns] tl] eqn:E.
  { exists [], step, rest, s. split; [done|]. split; [constructor|].
    exists l. split; [done|]. intros an Hin Heq.
    assert (an ∈ filter (λ an : string * State, Some an.1 = step) l) as Hf
      by by apply list_elem_of_filter.
    rewrite E in Hf. by apply elem_of_nil in Hf. }
  assert ((a, ns) ∈ filter (λ an : string * State, Some an.1 = step) l)
    as Hf by (rewrite E; left).
  apply list_elem_of_filter in Hf as [Ha Hns]. simpl in Ha. subst step.
  assert (step w s a ns) as Hstep by by exists l.
  specialize (IH ns). destruct (execute_plan w rest ns) as [t|e].
  - destruct IH as (acts & -> & Hrun). exists (a :: acts).
    split; [done|]. by eapply run_cons.
  - destruct IH as (acts & step' & rest' & t & -> & Hrun & He).
    exists (a :: acts), step', rest', t. split; [done|].
    split; [by eapply run_cons|done].
Qed.

End MorePlanFacts.

(** X7: goal states are stable: from a state where [is_goal] holds, every
    sequence of legal transitions ends in a state where [is_goal] holds. *)
Theorem goal_is_stable w s acts t :
  run w s acts t → is_goal s = true → is_goal t = true.
Proof.
  intros Hrun%run_remaining Hs%is_goal_empty. apply is_goal_empty.
  rewrite Hs in Hrun. apply set_eq. intros it.
  split; [apply Hrun|by intros ?%not_elem_of_empty].
Qed.

Lemma goal_is_stable_witness : is_goal (mkState ROOM1 ∅) = true.
Proof.
  apply (goal_is_stable shipped all_found ["move room3 -> room1"]).
  - eapply run_cons; [|constructor].
    exists [("move room3 -> room1", mkState ROOM1 ∅);
            ("move room3 -> room2", mkState ROOM2 ∅);
            ("move room3 -> outside1", mkState OUTSIDE1 ∅);
            ("move room3 -> outside2", mkState OUTSIDE2 ∅);
            ("move room3 -> room4", mkState ROOM4 ∅)].
    split; [vm_compute; reflexivity|left].
  - vm_compute. reflexivity.
Defined.

(** X8: every state reachable from [initial_state start_pos] by legal
    transitions has all its remaining items in [ITEM_START_POS] and none of
    them at the dog's position. *)
Theorem reachable_states_settled w start_pos s0 acts s :
  initial_state w start_pos = Ok s0 → run w s0 acts s →
  settled w s
  ∧ known_items w (remaining_items s)
  ∧ remaining_items s ⊆ dom (item_start_pos w).
Proof.
  intros Hinit Hrun.
  assert (settled w s0 ∧ remaining_items s0 ⊆ dom (item_start_pos w))
    as [Hset0 Hsub0].
  { unfold initial_state in Hinit.
    assert (known_items w (dom (item_start_pos w))) as Hk.
    { intros it Hit. by apply elem_of_dom. }
    rewrite auto_pickup_known in Hinit by done. simpl in Hinit.
    apply (inj Ok) in Hinit as <-. split; [apply items_here_collected|].
    simpl. set_solver. }
  assert (remaining_items s ⊆ dom (item_start_pos w)) as Hsub.
  { apply run_remaining in Hrun. set_solver. }
  split; [|split; [|done]].
  - destruct acts as [|a acts _] using rev_ind.
    + by apply run_nil_inv in Hrun as ->.
    + apply run_snoc_inv in Hrun as (p & _ & Hstep).
      by eapply step_settled.
  - intros it Hit%Hsub. by apply elem_of_dom.
Qed.

Lemma reachable_states_settled_witness :
  settled shipped (mkState ROOM2 {[ITEM2]})
  ∧ known_items shipped (remaining_items (mkState ROOM2 {[ITEM2]}))
  ∧ remaining_items (mkState ROOM2 {[ITEM2]}) ⊆ dom (item_start_pos shipped).
Proof.
  apply (reachable_states_settled shipped ROOM1 both_missing
           ["move room1 -> room2"]).
  - vm_compute. reflexivity.
  - eapply run_cons; [|constructor].
    exists [("move room1 -> room2", mkState ROOM2 {[ITEM2]});
            ("move room1 -> room3", mkState ROOM3 {[ITEM1; ITEM2]})].
    split; [vm_compute; reflexivity|left].
Defined.

(** X9: when [bfs_plan] raises, the exception is a [KeyError], the start is
    no goal state, and some state reachable from the start by legal
    transitions has an expansion that raises. *)
Theorem bfs_plan_raises w s e :
  bfs_plan w s (Raise e) →
  e = KeyError ∧ is_goal s = false
  ∧ ∃ acts v, run w s acts v ∧ possible_actions w v = Raise KeyError.
Proof.
  intros Hraise. pose proof (bfs_plan_post w s _ Hraise) as [-> Hv].
  split; [done|]. split; [|done].
  destruct (is_goal s) eqn:Hgoal; [|done].
  assert (bfs_plan w s (Ok (Some []))) as Hplan.
  { exists 2. by apply bfs_plan_fuel_goal. }
  by pose proof (bfs_plan_det w s _ _ Hraise Hplan).
Qed.

Lemma bfs_plan_raises_witness :
  KeyError = KeyError ∧ is_goal in_garden = false
  ∧ ∃ acts v, run shipped in_garden acts v
      ∧ possible_actions shipped v = Raise KeyError.
Proof.
  apply (bfs_plan_raises shipped in_garden KeyError).
  exists 1. vm_compute. reflexivity.
Defined.

(** X10: a plan returned by [bfs_plan] follows edges of the graph from the
    dog's position, its entries are the texts of these moves, and the
    locations it enters include the home of every remaining item of the
    start. *)
Theorem plan_is_trail w s plan :
  bfs_plan w s (Ok (Some plan)) →
  ∃ locs, trail w (dog_pos s) locs
    ∧ plan = Some <$> trail_labels (dog_pos s) locs
    ∧ ∀ it, it ∈ remaining_items s →
        ∃ home, item_start_pos w !! it = Some home ∧ home ∈ locs.
Proof.
  intros (acts & goal & -> & Hrun & Hgoal & _)%bfs_plan_post.
  apply run_trail in Hrun as (locs & Htrail & -> & _ & Hrem).
  exists locs. split; [done|]. split; [done|]. intros it Hit.
  apply is_goal_empty in Hgoal. rewrite Hgoal in Hrem.
  assert (¬ off_trail w locs it) as Hoff.
  { intros Hoff. assert (it ∈ (∅ : gset string)) as Hin.
    { rewrite Hrem. by apply elem_of_filter. }
    by apply not_elem_of_empty in Hin. }
  unfold off_trail in Hoff.
  destruct (item_start_pos w !! it) as [home|]; [|done].
  exists home. split; [done|].
  by destruct (decide (home ∈ locs)).
Qed.

Lemma plan_is_trail_witness :
  ∃ locs, trail shipped (dog_pos both_missing) locs
    ∧ both_missing_plan = Some <$> trail_labels (dog_pos both_missing) locs
    ∧ ∀ it, it ∈ remaining_items both_missing →
        ∃ home, item_start_pos shipped !! it = Some home ∧ home ∈ locs.
Proof.
  apply (plan_is_trail shipped both_missing both_missing_plan).
  exists 20. vm_compute. reflexivity.
Defined.

(** X11: a plan returned by [bfs_plan] never comes back to a state it has
    already been in: no part of it runs from a state to the same state. *)
Theorem plan_has_no_cycle w s plan l1 l2 l3 u :
  bfs_plan w s (Ok (Some plan)) →
  plan = Some <$> (l1 ++ l2 ++ l3) →
  run w s l1 u → run w u l2 u → l2 = [].
Proof.
  intros (acts & goal & -> & Hrun & Hgoal & Hmin)%bfs_plan_post Heq H1 H2.
  apply (inj (fmap Some)) in Heq as ->.
  apply run_app in Hrun as (u1 & Hu1 & Hrun).
  rewrite (run_det w _ _ _ _ Hu1 H1) in Hrun.
  apply run_app in Hrun as (u2 & Hu2 & Hrun).
  rewrite (run_det w _ _ _ _ Hu2 H2) in Hrun.
  assert (run w s (l1 ++ l3) goal) as Hshort.
  { apply run_app. by exists u. }
  apply Hmin in Hshort; [|done]. rewrite !length_app in Hshort.
  apply length_zero_iff_nil. lia.
Qed.

Lemma plan_has_no_cycle_witness : ([] : list string) = [].
Proof.
  apply (plan_has_no_cycle shipped both_missing both_missing_plan
           [] []
           ["move room1 -> room2"; "move room2 -> room3";
            "move room3 -> room4"; "move room4 -> room5"] both_missing).
  - exists 20. vm_compute. reflexivity.
  - reflexivity.
  - constructor.
  - constructor.
Defined.

(** X12: the plan returned by [bfs_plan] is empty exactly when the start is
    a goal state. *)
Theorem plan_empty_iff_goal w s plan :
  bfs_plan w s (Ok (Some plan)) → (plan = [] ↔ is_goal s = true).
Proof.
  intros Hplan. split.
  - intros ->. apply bfs_plan_post in Hplan
      as (acts & goal & Heq & Hrun & Hgoal & _).
    destruct acts; [|done]. by apply run_nil_inv in Hrun as ->.
  - intros Hgoal.
    assert (bfs_plan w s (Ok (Some []))) as Hnil.
    { exists 2. by apply bfs_plan_fuel_goal. }
    pose proof (bfs_plan_det w s _ _ Hplan Hnil) as Heq. by simplify_eq.
Qed.

Lemma plan_empty_iff_goal_witness :
  both_missing_plan = [] ↔ is_goal both_missing = true.
Proof.
  apply (plan_empty_iff_goal shipped both_missing both_missing_plan).
  exists 20. vm_compute. reflexivity.
Defined.

(** X13: replaying a plan succeeds exactly when the plan is the sequence of
    action texts of a sequence of legal transitions from the state, and it
    then ends in the state these transitions lead to. *)
Theorem execute_plan_Ok_iff w plan s t :
  execute_plan w plan s = Ok t ↔
  ∃ acts, plan = Some <$> acts ∧ run w s acts t.
Proof.
  split.
  - intros H. pose proof (execute_plan_outcome w plan s) as Hout.
    by rewrite H in Hout.
  - intros (acts & -> & Hrun).
    rewrite <- (app_nil_r (Some <$> acts)).
    by rewrite (execute_plan_after_run w s acts t []).
Qed.

(** X14: replaying the concatenation of two plans is replaying the first
    and then, from the state reached, the second; an exception of the first
    part ends the replay. *)
Theorem execute_plan_app w p1 p2 s :
  execute_plan w (p1 ++ p2) s = execute_plan w p1 s ≫= execute_plan w p2.
Proof.
  revert s. induction p1 as [|step rest IH]; intros s; simpl; [done|].
  destruct (possible_actions w s) as [l|e]; simpl; [|done].
  destruct (filter (λ an : string * State, Some an.1 = step) l)
    as [|[a ns] tl]; [done|]. apply IH.
Qed.

(** X15: the replay raises [RuntimeError] exactly when, after the steps
    replayed so far, the next step is the text of no legal action of the
    state reached (a stale plan, or an entry that is no text), and
    [KeyError] exactly when the expansion of the state reached raises. *)
Theorem execute_plan_raises w plan s e :
  execute_plan w plan s = Raise e ↔
  ∃ acts step rest t,
    plan = (Some <$> acts) ++ step :: rest ∧ run w s acts t
    ∧ match e with
      | KeyError => possible_actions w t = Raise KeyError
      | RuntimeError =>
          ∃ l, possible_actions w t = Ok l ∧ ∀ an, an ∈ l → Some an.1 ≠ step
      end.
Proof.
  split.
  - intros H. pose proof (execute_plan_outcome w plan s) as Hout.
    by rewrite H in Hout.
  - intros (acts & step & rest & t & -> & Hrun & He).
    rewrite (execute_plan_after_run w s acts t) by done. simpl.
    destruct e.
    + by rewrite He.
    + destruct He as (l & -> & Hnone). simpl.
      destruct (filter (λ an : string * State, Some an.1 = step) l)
        as [|an tl] eqn:E; [done|].
      assert (an ∈ filter (λ an : string * State, Some an.1 = step) l) as Hf
        by (rewrite E; left).
      apply list_elem_of_filter in Hf as [Ha Hin]. by apply Hnone in Hin.
Qed.

(** ** The text UI *)

Arguments bfs_plan_call : simpl never.

Section SortedFacts.

Lemma sorted_Permutation l : sorted l ≡ₚ l.
Proof. apply merge_sort_Permutation. Qed.

Lemma sorted_Sorted l : Sorted String.le (sorted l).
Proof. apply (Sorted_merge_sort String.le). Qed.

Lemma elem_of_sorted l x : x ∈ sorted l ↔ x ∈ l.
Proof. by rewrite sorted_Permutation. Qed.

Lemma sorted_NoDup l : NoDup l → NoDup (sorted l).
Proof. by rewrite sorted_Permutation. Qed.

(** The result of [sorted] does not depend on the order in which the
    elements are given. *)
Lemma sorted_order_free l1 l2 : l1 ≡ₚ l2 → sorted l1 = sorted l2.
Proof.
  intros Hp. apply (Sorted_unique String.le); [apply sorted_Sorted..|].
  by rewrite !sorted_Permutation.
Qed.

End SortedFacts.

Section TextUIFacts.
Context (w : World).
Context (str_strip str_lower : string → string).
Context (str_isdigit : string → bool).
Context (int_of_str : string → option Z).

Local Abbreviation play_loop :=
  (play_loop w str_strip str_lower str_isdigit int_of_str).
Local Abbreviation answer := (answer str_strip str_lower).
Local Abbreviation session_post :=
  (session_post w str_strip str_lower str_isdigit int_of_str).

Lemma bfs_plan_call_spec s : bfs_plan w s (bfs_plan_call w s).
Proof.
  destruct (bfs_plan_ends w s) as (r & Hr & _). unfold bfs_plan_call.
  rewrite Hr. by eexists.
Qed.

(** The execution with texts reaches the state, or raises the exception, of
    [execute_plan]. *)
Lemma execute_aloud_execute_plan plan : ∀ s,
  match execute_plan w plan s with
  | Ok t => ∃ outs, execute_aloud w plan s = (outs, t, None)
  | Raise e => ∃ outs s', execute_aloud w plan s = (outs, s', Some e)
  end.
Proof.
  induction plan as [|step rest IH]; intros s; simpl; [by eexists|].
  destruct (possible_actions w s) as [l|e]; simpl; [|by eexists _, _].
  destruct (filter (λ an : string * State, Some an.1 = step) l)
    as [|[a ns] tl]; [by eexists _, _|].
  specialize (IH ns). destruct (execute_plan w rest ns) as [t|e].
  - destruct IH as [outs ->]. by eexists.
  - destruct IH as (outs & s' & ->). by eexists _, _.
Qed.

Lemma execute_aloud_plan s plan :
  bfs_plan w s (Ok (Some plan)) →
  ∃ outs goal acts, execute_aloud w plan s = (outs, goal, None)
    ∧ run w s acts goal ∧ is_goal goal = true.
Proof.
  intros (acts & goal & -> & Hrun & Hgoal & _)%bfs_plan_post.
  pose proof (execute_aloud_execute_plan (Some <$> acts) s) as Hexec.
  rewrite (run_execute_plan w s acts goal Hrun) in Hexec.
  destruct Hexec as [outs Hexec]. by exists outs, goal, acts.
Qed.

Lemma session_post_say inputs s outs r :
  session_post inputs s r → session_post inputs s (say outs r).
Proof. done. Qed.

(** The rest of a session, after one line was read and the state moved
    along legal transitions. *)
Lemma session_post_later line rest s acts s' r :
  answer line ≠ "q" → run w s acts s' →
  session_post rest s' r → session_post (line :: rest) s r.
Proof.
  intros Hq Hrun [(acts' & Hrun') Hout]. split.
  { exists (acts ++ acts'). apply run_app. by exists s'. }
  destruct (outcome r) as [|[e| | |]].
  - destruct Hout as [?|(l & Hl & Hlq)]; [by left|].
    right. exists l. split; [by right|done].
  - destruct Hout as (-> & acts2 & v & Hv & Hraise). split; [done|].
    exists (acts ++ acts2), v. split; [|done]. apply run_app. by exists s'.
  - destruct Hout as [Hng Hnq]. split; [done|].
    intros l [->|Hl]%elem_of_cons; [done|by apply Hnq].
  - destruct Hout as (l & Hl & Hd & Hi). exists l. split; [by right|done].
  - done.
Qed.

Lemma play_loop_post inputs : ∀ s, session_post inputs s (play_loop inputs s).
Proof.
  induction inputs as [|line rest IH]; intros s; simpl;
    (destruct (is_goal s) eqn:Hgoal;
     [split; [exists []; constructor|by left]|]);
    (destruct (possible_actions w s) as [succ|e] eqn:Hsucc;
     [|split; [exists []; constructor|];
       pose proof (possible_actions_Raise w _ _ Hsucc) as ->;
       split; [done|]; exists [], s; split; [constructor|done]]).
  { split; [exists []; constructor|]. simpl. split; [done|].
    by intros l ?%elem_of_nil. }
  apply session_post_say, session_post_say.
  destruct (decide (str_lower (str_strip line) = "q")) as [Hq|Hq].
  { split; [exists []; constructor|]. simpl. right. exists line.
    split; [left|done]. }
  destruct (decide (str_lower (str_strip line) = "a")) as [Ha|Ha].
  { pose proof (bfs_plan_call_spec s) as Hcall.
    destruct (bfs_plan_call w s) as [[plan|]|e].
    - destruct (execute_aloud_plan s plan Hcall)
        as (outs & goal & acts & -> & Hrun & Hg).
      do 3 apply session_post_say.
      by apply (session_post_later line rest s acts goal).
    - apply session_post_say.
      apply (session_post_later line rest s [] s); [done|constructor|done].
    - apply bfs_plan_post in Hcall as [-> Hv].
      split; [exists []; constructor|]. by split. }
  destruct (str_isdigit (str_lower (str_strip line))) eqn:Hdigit; simpl.
  2: { apply session_post_say.
       apply (session_post_later line rest s [] s); [done|constructor|done]. }
  destruct (int_of_str (str_lower (str_strip line))) as [n|] eqn:Hint.
  2: { split; [exists []; constructor|]. simpl. exists line.
       split; [left|done]. }
  destruct (decide ((n - 1 < 0)%Z ∨ (Z.of_nat (length succ) ≤ n - 1)%Z))
    as [Hout|Hin].
  { apply session_post_say.
    apply (session_post_later line rest s [] s); [done|constructor|done]. }
  destruct (succ !! Z.to_nat (n - 1)) as [[a s']|] eqn:Hlook.
  2: { apply lookup_ge_None in Hlook. lia. }
  apply session_post_say.
  apply (session_post_later line rest s [a] s'); [done| |done].
  eapply run_cons; [|constructor]. exists succ. split; [done|].
  by eapply list_elem_of_lookup_2.
Qed.

Lemma play_loop_goal inputs s :
  is_goal s = true → play_loop inputs s = mkSession [print WIN] s Finished.
Proof. intros Hgoal. destruct inputs; simpl; by rewrite Hgoal. Qed.

Lemma play_loop_nil_final s : final (play_loop [] s) = s.
Proof.
  simpl. destruct (is_goal s); [done|].
  by destruct (possible_actions w s).
Qed.

(** A plan from a state that is no goal begins with a legal transition. *)
Lemma bfs_plan_expands s plan :
  bfs_plan w s (Ok (Some plan)) → is_goal s = false →
  ∃ acts, possible_actions w s = Ok acts.
Proof.
  intros (acts & goal & -> & Hrun & Hgoal & _)%bfs_plan_post Hng.
  inversion Hrun as [|? a s' ? ? Hstep Hrest]; subst; [congruence|].
  destruct Hstep as (l & Hl & _). by exists l.
Qed.

End TextUIFacts.

(** X16: the status line names the dog's position and then either the marker
    for no remaining item, or the remaining items in ascending order, each
    once, separated by a comma and a space; the order in which the set is
    enumerated does not matter. *)
Theorem pretty_state_lists_sorted s :
  ∃ text, pretty_state s = "Dog: " +:+ dog_pos s +:+ " | Remaining: " +:+ text
    ∧ if decide (remaining_items s = ∅) then text = "none (all found)"
      else ∃ l, text = join ", " l
             ∧ Sorted String.le l ∧ NoDup l
             ∧ (∀ it, it ∈ l ↔ it ∈ remaining_items s)
             ∧ ∀ l', NoDup l' → (∀ it, it ∈ l' ↔ it ∈ remaining_items s) →
                 sorted l' = l.
Proof.
  unfold pretty_state. eexists. split; [done|].
  destruct (decide (remaining_items s = ∅)) as [He|Hne]; [done|].
  eexists. split; [done|]. split; [apply sorted_Sorted|].
  split; [apply sorted_NoDup, NoDup_elements|]. split.
  - intros it. by rewrite elem_of_sorted, elem_of_elements.
  - intros l' Hnd Hl'. apply sorted_order_free.
    apply NoDup_Permutation; [done|apply NoDup_elements|].
    intros it. by rewrite Hl', elem_of_elements.
Qed.

(** X17: after a legal transition the items announced as found are exactly
    the remaining items whose home is the position entered, in ascending
    order, each once. *)
Theorem found_now_at_new_position w s acts a s' :
  possible_actions w s = Ok acts → (a, s') ∈ acts →
  Sorted String.le (found_now s s') ∧ NoDup (found_now s s')
  ∧ ∀ it, it ∈ found_now s s' ↔
      it ∈ remaining_items s ∧ item_start_pos w !! it = Some (dog_pos s').
Proof.
  intros Hacts Hin. assert (step w s a s') as Hstep by by exists acts.
  apply step_inv in Hstep as (nbrs & n & Hg & Hn & Hk & -> & ->).
  unfold found_now. split; [apply sorted_Sorted|].
  split; [apply sorted_NoDup, NoDup_elements|].
  intros it. rewrite elem_of_sorted, elem_of_elements. simpl.
  rewrite !elem_of_difference. unfold items_here. simpl.
  rewrite elem_of_filter. split; [|tauto].
  intros [Hit Hnot]. split; [done|].
  destruct (decide (item_start_pos w !! it = Some n)); tauto.
Qed.

Lemma found_now_at_new_position_witness :
  Sorted String.le (found_now both_missing (mkState ROOM2 {[ITEM2]}))
  ∧ NoDup (found_now both_missing (mkState ROOM2 {[ITEM2]}))
  ∧ ∀ it, it ∈ found_now both_missing (mkState ROOM2 {[ITEM2]}) ↔
      it ∈ remaining_items both_missing
      ∧ item_start_pos shipped !! it
        = Some (dog_pos (mkState ROOM2 {[ITEM2]})).
Proof.
  apply (found_now_at_new_position shipped both_missing
           [("move room1 -> room2", mkState ROOM2 {[ITEM2]});
            ("move room1 -> room3", mkState ROOM3 {[ITEM1; ITEM2]})]
           "move room1 -> room2").
  - vm_compute. reflexivity.
  - left.
Defined.

Section SessionProperties.
Context (w : World).
Context (str_strip str_lower : string → string).
Context (str_isdigit : string → bool).
Context (int_of_str : string → option Z).

Local Abbreviation play_loop :=
  (play_loop w str_strip str_lower str_isdigit int_of_str).
Local Abbreviation play_interactive :=
  (play_interactive w str_strip str_lower str_isdigit int_of_str).
Local Abbreviation answer := (answer str_strip str_lower).

(** X18: whatever is typed, the state of a session is always one that legal
    transitions lead to from the start state, and its remaining items are
    among those of the start state. *)
Theorem session_state_reachable inputs start :
  (∃ acts, run w start acts (final (play_interactive inputs start)))
  ∧ remaining_items (final (play_interactive inputs start))
    ⊆ remaining_items start.
Proof.
  destruct (play_loop_post w str_strip str_lower str_isdigit int_of_str
              inputs start) as [(acts & Hrun) _].
  split; [by exists acts|]. by eapply run_remaining.
Qed.

(** X19: a session returns normally only when the goal is reached or the
    answer [q] was read. *)
Theorem session_returns_on_win_or_quit inputs start :
  outcome (play_interactive inputs start) = Finished →
  is_goal (final (play_interactive inputs start)) = true
  ∨ ∃ line, line ∈ inputs ∧ answer line = "q".
Proof.
  intros Hfin.
  destruct (play_loop_post w str_strip str_lower str_isdigit int_of_str
              inputs start) as [_ Hout].
  simpl in Hfin. by rewrite Hfin in Hout.
Qed.

(** X20: whatever the world, the start state and the answers, a session
    never raises the [RuntimeError] of an inapplicable plan step, and its
    subscript of the action list is never out of range. *)
Theorem session_never_misses_a_step inputs start :
  outcome (play_interactive inputs start) ≠ Failed (CoreError RuntimeError)
  ∧ outcome (play_interactive inputs start) ≠ Failed IndexError.
Proof.
  destruct (play_loop_post w str_strip str_lower str_isdigit int_of_str
              inputs start) as [_ Hout].
  simpl. split; intros Heq; rewrite Heq in Hout; [|done].
  by destruct Hout as [? _].
Qed.

(** X21: in a closed world, a session from a state whose location is a key
    of the graph and whose items all have a home raises no exception of the
    engine. *)
Theorem session_closed_world_safe inputs start e :
  closed_world w → valid w start →
  outcome (play_interactive inputs start) ≠ Failed (CoreError e).
Proof.
  intros Hcw Hv Heq.
  destruct (play_loop_post w str_strip str_lower str_isdigit int_of_str
              inputs start) as [_ Hout].
  simpl in Heq. rewrite Heq in Hout.
  destruct Hout as (_ & acts & v & Hrun & Hraise).
  destruct (possible_actions_valid w v) as [succ Hsucc]; [|congruence].
  by eapply run_valid.
Qed.

(** X22: a session ends with [ValueError] only if an answer passed
    [isdigit] and was refused by [int], and with [EOFError] only in a state
    that is no goal, after every line was read and none was the answer
    [q]. *)
Theorem session_input_failures inputs start :
  match outcome (play_interactive inputs start) with
  | Failed ValueError =>
      ∃ line, line ∈ inputs ∧ str_isdigit (answer line) = true
        ∧ int_of_str (answer line) = None
  | Failed EOFError =>
      is_goal (final (play_interactive inputs start)) = false
      ∧ ∀ line, line ∈ inputs → answer line ≠ "q"
  | _ => True
  end.
Proof.
  destruct (play_loop_post w str_strip str_lower str_isdigit int_of_str
              inputs start) as [_ Hout].
  simpl in *.
  by destruct (outcome (play_loop inputs start)) as [|[e| | |]].
Qed.

(** X23: when [bfs_plan] finds a plan from the current state, the answer
    [a] ends the session with the goal reached; the lines after it are not
    read. *)
Theorem auto_solve_wins line rest s plan :
  bfs_plan w s (Ok (Some plan)) → answer line = "a" →
  play_interactive (line :: rest) s = play_interactive [line] s
  ∧ outcome (play_interactive (line :: rest) s) = Finished
  ∧ is_goal (final (play_interactive (line :: rest) s)) = true.
Proof.
  intros Hplan Ha. unfold play_interactive, answer in *.
  destruct (is_goal s) eqn:Hgoal.
  { rewrite !(play_loop_goal w _ _ _ _ _ s Hgoal). by simpl. }
  destruct (bfs_plan_expands w s plan Hplan Hgoal) as [acts Hacts].
  assert (bfs_plan_call w s = Ok (Some plan)) as Hcall.
  { symmetry. apply (bfs_plan_det w s); [done|apply bfs_plan_call_spec]. }
  destruct (execute_aloud_plan w s plan Hplan)
    as (outs & goal & acts' & Hexec & Hrun & Hg).
  simpl. rewrite Hgoal, Hacts, Ha. simpl. rewrite Hcall, Hexec.
  rewrite (play_loop_goal w _ _ _ _ _ goal Hg), Hg. by simpl.
Qed.

(** X25: answers that are neither [q], [a] nor the number of a listed
    action leave the state as it is: a session that reads only such answers
    stays in its start state until the input ends. *)
Theorem turned_down_answers_keep_state inputs s acts :
  is_goal s = false → possible_actions w s = Ok acts →
  (∀ line, line ∈ inputs →
     turned_down str_strip str_lower str_isdigit int_of_str acts line) →
  final (play_interactive inputs s) = s
  ∧ outcome (play_interactive inputs s) = Failed EOFError.
Proof.
  intros Hgoal Hacts. unfold play_interactive. simpl.
  induction inputs as [|line rest IH]; intros Hall; simpl;
    rewrite Hgoal, Hacts; [done|].
  destruct (Hall line) as (Hq & Ha & Hnum); [left|]. unfold answer in *.
  rewrite decide_False, decide_False by done.
  assert (∀ l, l ∈ rest →
            turned_down str_strip str_lower str_isdigit int_of_str acts l)
    as Hrest by (intros l Hl; apply Hall; by right).
  destruct Hnum as [Hd|(Hd & n & Hn & Hrange)]; rewrite Hd; simpl.
  - by apply IH.
  - rewrite Hn. rewrite decide_True by lia. simpl. by apply IH.
Qed.

(** X26: the numbers of the menu are those of the moves: the line of the
    menu with number [k + 1] shows the text of the pair at index [k] of
    [possible_actions], and the answer [k + 1] moves the session to the
    state of that pair. *)
Theorem numbered_answer_moves line s acts k a s' :
  is_goal s = false → possible_actions w s = Ok acts →
  acts !! k = Some (a, s') →
  answer line ≠ "q" → answer line ≠ "a" →
  str_isdigit (answer line) = true →
  int_of_str (answer line) = Some (Z.of_nat (S k)) →
  menu acts !! S k = Some (print ("  " +:+ pretty (S k) +:+ ". " +:+ a))
  ∧ final (play_interactive [line] s) = s'.
Proof.
  intros Hgoal Hacts Hk Hq Ha Hd Hn. split.
  - unfold menu. simpl.
    rewrite lookup_app_l by (rewrite length_imap; by eapply lookup_lt_Some).
    by rewrite list_lookup_imap, Hk.
  - unfold play_interactive, answer in *. simpl.
    rewrite Hgoal, Hacts. simpl.
    rewrite decide_False, decide_False by done. rewrite Hd, Hn. simpl.
    apply lookup_lt_Some in Hk as Hlt.
    rewrite decide_False by lia.
    replace (Z.to_nat (Z.of_nat (S k) - 1)) with k by lia.
    rewrite Hk. simpl.
    destruct (is_goal s'); [done|]. by destruct (possible_actions w s').
Qed.

End SessionProperties.

(** X24: in the shipped world [main] starts a session whatever is typed, and
    the session raises no [KeyError], no [RuntimeError] and no
    [IndexError]; its state is always reachable from the initial state. *)
Theorem main_session_safe str_strip str_lower str_isdigit int_of_str inputs :
  ∃ start r,
    initial_state shipped ROOM1 = Ok start
    ∧ main shipped str_strip str_lower str_isdigit int_of_str inputs = Ok r
    ∧ (∃ acts, run shipped start acts (final r))
    ∧ match outcome r with
      | Failed (CoreError _) | Failed IndexError => False
      | _ => True
      end.
Proof.
  assert (ROOM1 ∈ dom (graph shipped)) as Hroom.
  { apply elem_of_dom. by eexists. }
  destruct (initial_state_valid shipped ROOM1 Hroom) as (start & Hinit & Hv).
  exists start. eexists. unfold main. rewrite Hinit.
  split; [reflexivity|]. split; [reflexivity|].
  pose proof (play_loop_post shipped str_strip str_lower str_isdigit
                int_of_str inputs start) as Hpost.
  unfold play_interactive, session_post in *.
  set (r := play_loop shipped str_strip str_lower str_isdigit int_of_str
              inputs start) in *.
  clearbody r. destruct Hpost as [Hrun Hout].
  destruct r as [outs fin out]. cbn [final outcome say] in *.
  split; [exact Hrun|].
  destruct out as [|[e| | |]]; [exact I| |exact I|exact I|exact Hout].
  destruct Hout as (_ & acts & v & Hrun' & Hraise).
  pose proof (run_valid shipped start acts v shipped_closed Hv Hrun') as Hvv.
  destruct (possible_actions_valid shipped v Hvv) as [succ Hsucc].
  rewrite Hsucc in Hraise. discriminate Hraise.
Qed.

(** *** Examples of sessions *)

Lemma session_returns_on_win_or_quit_witness :
  is_goal (final (play_interactive shipped demo_strip demo_lower demo_isdigit
                    demo_int ["q"] both_missing)) = true
  ∨ ∃ line, line ∈ ["q"] ∧ answer demo_strip demo_lower line = "q".
Proof.
  apply (session_returns_on_win_or_quit shipped demo_strip demo_lower
           demo_isdigit demo_int ["q"] both_missing).
  vm_compute. reflexivity.
Defined.

Lemma session_closed_world_safe_witness :
  outcome (play_interactive shipped demo_strip demo_lower demo_isdigit
             demo_int ["2"; "a"] both_missing)
  ≠ Failed (CoreError KeyError).
Proof.
  apply (session_closed_world_safe shipped demo_strip demo_lower demo_isdigit
           demo_int ["2"; "a"] both_missing KeyError).
  - refine (bool_decide_unpack _ _). vm_compute. exact I.
  - split.
    + refine (bool_decide_unpack _ _). vm_compute. exact I.
    + refine (bool_decide_unpack _ _). vm_compute. exact I.
Defined.

Lemma auto_solve_wins_witness :
  play_interactive shipped demo_strip demo_lower demo_isdigit demo_int
    ("a" :: ["x"; "q"]) both_missing
  = play_interactive shipped demo_strip demo_lower demo_isdigit demo_int
      ["a"] both_missing
  ∧ outcome (play_interactive shipped demo_strip demo_lower demo_isdigit
               demo_int ("a" :: ["x"; "q"]) both_missing) = Finished
  ∧ is_goal (final (play_interactive shipped demo_strip demo_lower
                      demo_isdigit demo_int ("a" :: ["x"; "q"])
                      both_missing)) = true.
Proof.
  apply (auto_solve_wins shipped demo_strip demo_lower demo_isdigit demo_int
           "a" ["x"; "q"] both_missing both_missing_plan).
  - exists 20. vm_compute. reflexivity.
  - reflexivity.
Defined.

Lemma turned_down_answers_keep_state_witness :
  final (play_interactive shipped demo_strip demo_lower demo_isdigit demo_int
           ["x"; "9"] both_missing) = both_missing
  ∧ outcome (play_interactive shipped demo_strip demo_lower demo_isdigit
               demo_int ["x"; "9"] both_missing) = Failed EOFError.
Proof.
  apply (turned_down_answers_keep_state shipped demo_strip demo_lower
           demo_isdigit demo_int ["x"; "9"] both_missing
           both_missing_actions).
  - vm_compute. reflexivity.
  - vm_compute. reflexivity.
  - intros line Hline.
    apply elem_of_cons in Hline as [->|Hline];
      [|apply elem_of_cons in Hline as [->|Hline];
        [|by apply elem_of_nil in Hline]].
    + split; [discriminate|]. split; [discriminate|]. left. reflexivity.
    + split; [discriminate|]. split; [discriminate|]. right.
      split; [reflexivity|]. exists 9%Z. split; [reflexivity|].
      right. vm_compute. reflexivity.
Defined.

Lemma numbered_answer_moves_witness :
  menu both_missing_actions !! 2
  = Some (print ("  " +:+ pretty 2 +:+ ". " +:+ "move room1 -> room3"))
  ∧ final (play_interactive shipped demo_strip demo_lower demo_isdigit
             demo_int ["2"] both_missing)
    = mkState ROOM3 {[ITEM1; ITEM2]}.
Proof.
  apply (numbered_answer_moves shipped demo_strip demo_lower demo_isdigit
           demo_int "2" both_missing both_missing_actions 1
           "move room1 -> room3" (mkState ROOM3 {[ITEM1; ITEM2]})).
  - vm_compute. reflexivity.
  - vm_compute. reflexivity.
  - reflexivity.
  - discriminate.
  - discriminate.
  - reflexivity.
  - reflexivity.
Defined.
